(** * Selection of the susceptibility-distortion-correction workflow

    A shallow embedding of [sdcflows/workflows/base.py]: the priority table
    [FMAP_PRIORITY] and the function [init_sdc_wf], which picks a fieldmap
    among the ones it is given and assembles the matching nipype workflow.

    Python values are modelled as far as the function inspects them:
    strings (type tags, file names), nested string mappings (the
    ['metadata'] entry of an EPI fieldmap), dictionaries as association
    lists in insertion order, exceptions as an error result, and the
    caller's list of fieldmaps as a piece of state, because [list.sort]
    works in place. *)

From Stdlib Require Import String Ascii List Bool Arith NArith Lia.
From Stdlib Require Import Permutation Sorted.
Import ListNotations.
Open Scope string_scope.
Open Scope list_scope.

Set Implicit Arguments.

Arguments String.eqb !s1 !s2 : simpl nomatch.

(** ** Python values, dictionaries and exceptions *)

(** The values that the function meets in its documented inputs: strings
    and nested string mappings.  Other Python values ([None], numbers)
    are not modelled. *)
Inductive value : Type :=
| Str (s : string)
| Dict (d : list (string * string)).

(** A [dict] with string keys, in insertion order.  A Python dict never
    holds a key twice; lookups take the first binding. *)
Definition dict : Type := list (string * value).

Inductive exception : Type :=
| KeyError (key : string)
| TypeError
| IndexError
| NameError (name : string).

Inductive result (A : Type) : Type :=
| Ok (a : A)
| Raise (e : exception).

Arguments Ok {A} a.
Arguments Raise {A} e.

Definition rbind {A B} (r : result A) (k : A -> result B) : result B :=
  match r with
  | Ok a => k a
  | Raise e => Raise e
  end.

Declare Scope result_scope.
Delimit Scope result_scope with result.
Notation "x <- c ;; k" := (rbind c (fun x => k))
  (at level 61, c at next level, right associativity) : result_scope.
Open Scope result_scope.

(** [[f(x) for x in l]], evaluated left to right; the first exception wins. *)
Fixpoint mapM {A B} (f : A -> result B) (l : list A) : result (list B) :=
  match l with
  | [] => Ok []
  | x :: l' => y <- f x ;; ys <- mapM f l' ;; Ok (y :: ys)
  end.

Fixpoint lookup {V} (d : list (string * V)) (k : string) : option V :=
  match d with
  | [] => None
  | (k', v) :: d' => if k' =? k then Some v else lookup d' k
  end.

(** [d[k]] *)
Definition getitem {V} (d : list (string * V)) (k : string) : result V :=
  match lookup d k with
  | Some v => Ok v
  | None => Raise (KeyError k)
  end.

(** [v[k]] on a value: a nested mapping is indexed, a string refuses a
    string index. *)
Definition subscript (v : value) (k : string) : result string :=
  match v with
  | Dict d => getitem d k
  | Str _ => Raise TypeError
  end.

(** [hash(v)], as [set(...)] and dictionary lookups need it: a dict is
    unhashable. *)
Definition hashable (v : value) : result string :=
  match v with
  | Str s => Ok s
  | Dict _ => Raise TypeError
  end.

(** [v == s] for a string literal [s]. *)
Definition eq_str (v : value) (s : string) : bool :=
  match v with
  | Str s' => s' =? s
  | Dict _ => false
  end.

(** [l[0]] and [l[-1]] *)
Definition first {A} (l : list A) : result A :=
  match l with
  | [] => Raise IndexError
  | x :: _ => Ok x
  end.

Definition final {A} (l : list A) : result A :=
  match rev l with
  | [] => Raise IndexError
  | x :: _ => Ok x
  end.

(** ** Sorting

    [list.sort] and [sorted] are stable.  The model is the stable
    insertion of each element into the sorted rest; the lemmas below
    characterise its result (a permutation, ordered, equal keys in input
    order), so nothing depends on the algorithm. *)

Section Sorting.
Variables (A K : Type) (leb : K -> K -> bool) (key : A -> K).

Fixpoint insert (x : A) (l : list A) : list A :=
  match l with
  | [] => [x]
  | y :: l' => if leb (key x) (key y) then x :: l else y :: insert x l'
  end.

Definition sort (l : list A) : list A := fold_right insert [] l.
End Sorting.

(** ** The catalog *)

Definition FMAP_PRIORITY : list (string * nat) :=
  [("epi", 0); ("fieldmap", 1); ("phasediff", 2); ("syn", 3)].

(** ** The caller's list as state

    A computation reads and updates the list object the caller passed as
    [fmaps] and either returns or raises; an exception keeps the state
    reached so far. *)

Definition M (A : Type) : Type := list dict -> list dict * result A.

Definition ret {A} (a : A) : M A := fun s => (s, Ok a).

Definition bind {A B} (m : M A) (k : A -> M B) : M B :=
  fun s =>
    match m s with
    | (s', Ok a) => k a s'
    | (s', Raise e) => (s', Raise e)
    end.

Definition lift {A} (r : result A) : M A := fun s => (s, r).

Definition deref : M (list dict) := fun s => (s, Ok s).

Declare Scope state_scope.
Delimit Scope state_scope with state.
Notation "x <- c ;; k" := (bind c (fun x => k))
  (at level 61, c at next level, right associativity) : state_scope.

(** [l.sort(key=f)]: the keys of all elements are computed first, in list
    order; if one raises, the list is left as it was. *)
Definition list_sort (f : dict -> result nat) : M unit :=
  fun s =>
    match mapM f s with
    | Ok keys => (map snd (sort Nat.leb fst (combine keys s)), Ok tt)
    | Raise e => (s, Raise e)
    end.

(** ** Workflows

    What the function uses of nipype: nodes, a workflow with a name, an
    attribute [sdc_method] and the connections made by [connect]. *)

(** The value set on an input field of a sub-workflow. *)
Inductive input : Type :=
| One (v : value)
| Many (vs : list value).

(** Modelled from the spec: the sub-workflow constructors
    [init_pepolar_unwarp_wf], [init_fmap_wf], [init_phdiff_wf],
    [init_sdc_unwarp_wf] and [init_syn_sdc_wf] live in sibling modules
    ([.pepolar], [.fmap], [.phdiff], [.unwarp], [.syn]) that are not part
    of the sources at hand.  The specification treats them as opaque
    sub-graphs: each is a node that records the arguments it was built
    with and the inputs set on it afterwards. *)
Inductive node : Type :=
| IdentityInterface (name : string) (fields : list string)
| PepolarUnwarp (name : string) (bold_meta : dict)
    (epi_fmaps : list (value * string)) (omp_nthreads : nat)
| FmapEstimator (omp_nthreads : nat) (fmap_bspline : bool)
    (inputs : list (string * input))
| PhdiffEstimator (omp_nthreads : nat) (inputs : list (string * input))
| SdcUnwarp (name : string) (omp_nthreads : nat) (fmap_demean debug : bool)
| SynSdc (template : option string) (bold_pe : option value)
    (omp_nthreads : nat).

Definition init_pepolar_unwarp_wf (bold_meta : dict)
    (epi_fmaps : list (value * string)) (omp_nthreads : nat) (name : string) :=
  PepolarUnwarp name bold_meta epi_fmaps omp_nthreads.

Definition init_fmap_wf (omp_nthreads : nat) (fmap_bspline : bool) :=
  FmapEstimator omp_nthreads fmap_bspline [].

Definition init_phdiff_wf (omp_nthreads : nat) :=
  PhdiffEstimator omp_nthreads [].

Definition init_sdc_unwarp_wf (omp_nthreads : nat) (fmap_demean debug : bool)
    (name : string) :=
  SdcUnwarp name omp_nthreads fmap_demean debug.

Definition init_syn_sdc_wf (template : option string) (bold_pe : option value)
    (omp_nthreads : nat) :=
  SynSdc template bold_pe omp_nthreads.

(** [wf.inputs.inputnode.<field> = v] *)
Definition set_input (n : node) (field : string) (v : input) : node :=
  match n with
  | FmapEstimator o b i => FmapEstimator o b (i ++ [(field, v)])
  | PhdiffEstimator o i => PhdiffEstimator o (i ++ [(field, v)])
  | _ => n
  end.

Record edge : Type := Edge {
  src : node;
  src_port : string;
  dst : node;
  dst_port : string
}.

Record Workflow : Type := {
  name : string;
  sdc_method : option string;
  edges : list edge
}.

Definition new_workflow (n : string) : Workflow :=
  {| name := n; sdc_method := None; edges := [] |}.

(** [workflow.connect([(a, b, [(p, q), ...]), ...])] *)
Definition connect (wf : Workflow)
    (l : list (node * node * list (string * string))) : Workflow :=
  {| name := name wf;
     sdc_method := sdc_method wf;
     edges := edges wf ++
       flat_map (fun '(a, b, ports) =>
                   map (fun '(p, q) => Edge a p b q) ports) l |}.

(** [setattr(workflow, 'sdc_method', label)] *)
Definition set_sdc_method (wf : Workflow) (label : string) : Workflow :=
  {| name := name wf; sdc_method := Some label; edges := edges wf |}.

Definition inputnode : node :=
  IdentityInterface "inputnode"
    ["name_source"; "bold_ref"; "bold_ref_brain"; "bold_mask";
     "t1_brain"; "t1_2_mni_reverse_transform"].

Definition outputnode : node :=
  IdentityInterface "outputnode"
    ["bold_ref"; "bold_mask"; "bold_ref_brain"; "out_warp"; "syn_bold_ref"].

(** ** [init_sdc_wf] *)

(** The local variables that the three strategy blocks assign. *)
Record frame : Type := {
  workflow : Workflow;
  sdc_unwarp_wf : option node
}.

(** ['%s' % v] *)
Definition percent_s (v : value) : string :=
  match v with
  | Str s => s
  | Dict d =>
      ("{" ++ String.concat ", "
                (map (fun '(k, x) => "'" ++ k ++ "': '" ++ x ++ "'") d) ++ "}"
      )%string
  end.

Definition dquote : string := String (ascii_of_nat 34) EmptyString.

Definition PEPOLAR_METHOD : string :=
  "PEB/PEPOLAR (phase-encoding based / PE-POLARity)".

Definition SYN_METHOD : string :=
  ("FLB (" ++ dquote ++ "fieldmap-less" ++ dquote ++ " based) - SyN")%string.

(** The key of [fmaps.sort]: [FMAP_PRIORITY[fmap['type']]]. *)
Definition priority (fmap : dict) : result nat :=
  ty <- getitem fmap "type" ;;
  tag <- hashable ty ;;
  getitem FMAP_PRIORITY tag.

(** [tag in FMAP_PRIORITY] *)
Definition known (tag : string) : bool :=
  match lookup FMAP_PRIORITY tag with
  | Some _ => true
  | None => false
  end.

(** [set(tags).intersection(FMAP_PRIORITY)] is not empty. *)
Definition supported (tags : list string) : bool := existsb known tags.

(** [[(fmap_['epi'], fmap_['metadata']["PhaseEncodingDirection"])
      for fmap_ in fmaps if fmap_['type'] == 'epi']] *)
Fixpoint epi_polarities (fmaps : list dict) : result (list (value * string)) :=
  match fmaps with
  | [] => Ok []
  | fmap_ :: rest =>
      ty <- getitem fmap_ "type" ;;
      if eq_str ty "epi" then
        epi <- getitem fmap_ "epi" ;;
        meta <- getitem fmap_ "metadata" ;;
        pe <- subscript meta "PhaseEncodingDirection" ;;
        tl <- epi_polarities rest ;;
        Ok ((epi, pe) :: tl)
      else epi_polarities rest
  end.

(** [[fmap_ for key, fmap_ in sorted(fmap.items())
      if key.startswith("magnitude")]].  The items of a dict have
    distinct keys, so comparing the pairs compares the keys. *)
Definition magnitudes (fmap : dict) : list value :=
  map snd
    (filter (fun kv => prefix "magnitude" (fst kv)) (sort String.leb fst fmap)).

Section Compose.
Variables (bold_meta : dict) (template : option string) (omp_nthreads : nat)
          (debug fmap_bspline fmap_demean : bool).

(** The PEPOLAR block: [if fmap['type'] == 'epi': ...] *)
Definition pepolar_path (fmaps : list dict) (fmap : dict) (fr : frame)
  : result frame :=
  ty <- getitem fmap "type" ;;
  if eq_str ty "epi" then
    let wf := set_sdc_method (workflow fr) PEPOLAR_METHOD in
    epi_fmaps <- epi_polarities fmaps ;;
    Ok {| workflow := wf;
          sdc_unwarp_wf :=
            Some (init_pepolar_unwarp_wf bold_meta epi_fmaps omp_nthreads
                    "pepolar_unwarp_wf") |}
  else Ok fr.

(** The FIELDMAP block: [if fmap['type'] in ['fieldmap', 'phasediff']: ...] *)
Definition fieldmap_path (fmap : dict) (fr : frame) : result frame :=
  ty <- getitem fmap "type" ;;
  if eq_str ty "fieldmap" || eq_str ty "phasediff" then
    ty <- getitem fmap "type" ;;
    let wf := set_sdc_method (workflow fr)
                ("FMB (" ++ percent_s ty ++ "-based)")%string in
    ty <- getitem fmap "type" ;;
    fmap_estimator_wf <-
      (if eq_str ty "fieldmap" then
         let est := init_fmap_wf omp_nthreads fmap_bspline in
         fieldmap <- getitem fmap "fieldmap" ;;
         let est := set_input est "fieldmap" (One fieldmap) in
         magnitude <- getitem fmap "magnitude" ;;
         Ok (Some (set_input est "magnitude" (One magnitude)))
       else Ok None) ;;
    ty <- getitem fmap "type" ;;
    fmap_estimator_wf <-
      (if eq_str ty "phasediff" then
         let est := init_phdiff_wf omp_nthreads in
         phasediff <- getitem fmap "phasediff" ;;
         let est := set_input est "phasediff" (One phasediff) in
         Ok (Some (set_input est "magnitude" (Many (magnitudes fmap))))
       else Ok fmap_estimator_wf) ;;
    let unwarp :=
      init_sdc_unwarp_wf omp_nthreads fmap_demean debug "sdc_unwarp_wf" in
    match fmap_estimator_wf with
    | None => Raise (NameError "fmap_estimator_wf")
    | Some est =>
        Ok {| workflow :=
                connect wf
                  [(inputnode, unwarp,
                    [("name_source", "inputnode.name_source")]);
                   (est, unwarp,
                    [("outputnode.fmap", "inputnode.fmap");
                     ("outputnode.fmap_ref", "inputnode.fmap_ref");
                     ("outputnode.fmap_mask", "inputnode.fmap_mask")])];
              sdc_unwarp_wf := Some unwarp |}
    end
  else Ok fr.

(** The FIELDMAP-less block: [if fmaps[-1]['type'] == 'syn': ...] *)
Definition syn_path (fmaps : list dict) (fr : frame) : result frame :=
  last_fmap <- final fmaps ;;
  ty <- getitem last_fmap "type" ;;
  if eq_str ty "syn" then
    let syn_sdc_wf :=
      init_syn_sdc_wf template (lookup bold_meta "PhaseEncodingDirection")
        omp_nthreads in
    let wf :=
      connect (workflow fr)
        [(inputnode, syn_sdc_wf,
          [("t1_brain", "inputnode.t1_brain");
           ("t1_2_mni_reverse_transform",
            "inputnode.t1_2_mni_reverse_transform");
           ("bold_ref_brain", "inputnode.bold_ref")])] in
    if Nat.eqb (List.length fmaps) 1 then
      Ok {| workflow := set_sdc_method wf SYN_METHOD;
            sdc_unwarp_wf := Some syn_sdc_wf |}
    else
      Ok {| workflow :=
              connect wf
                [(syn_sdc_wf, outputnode,
                  [("outputnode.out_warp_report", "syn_bold_ref")])];
            sdc_unwarp_wf := sdc_unwarp_wf fr |}
  else Ok fr.

(** The last [connect]: reading [sdc_unwarp_wf] before any block has
    assigned it raises (Python's [UnboundLocalError], a [NameError]). *)
Definition wire_outputs (fr : frame) : result Workflow :=
  match sdc_unwarp_wf fr with
  | None => Raise (NameError "sdc_unwarp_wf")
  | Some unwarp =>
      Ok (connect (workflow fr)
            [(unwarp, outputnode,
              [("outputnode.out_warp", "out_warp");
               ("outputnode.out_reference", "bold_ref");
               ("outputnode.out_reference_brain", "bold_ref_brain");
               ("outputnode.out_mask", "bold_mask")])])
  end.

(** Lines 170 to 253, once the list is sorted. *)
Definition compose (fmaps : list dict) (wf : Workflow) : result Workflow :=
  fmap <- first fmaps ;;
  fr <- pepolar_path fmaps fmap {| workflow := wf; sdc_unwarp_wf := None |} ;;
  fr <- fieldmap_path fmap fr ;;
  fr <- syn_path fmaps fr ;;
  wire_outputs fr.

(** The workflow of the bypass: inputs forwarded to outputs. *)
Definition bypass (wf : Workflow) : Workflow :=
  connect wf
    [(inputnode, outputnode,
      [("bold_ref", "bold_ref");
       ("bold_mask", "bold_mask");
       ("bold_ref_brain", "bold_ref_brain")])].

(** The function itself.  The state is the list object the caller passed
    as [fmaps]; the local name [fmaps] is that object, or [None] once
    line 146 has rebound it. *)
Definition init_sdc_wf : M Workflow :=
  (arg <- deref ;;
   types <- lift (mapM (fun fmap => getitem fmap "type") arg) ;;
   tags <- lift (mapM hashable types) ;;
   let fmaps_is_none := negb (supported tags) in
   let wf := new_workflow (if fmaps_is_none then "sdc_bypass_wf"
                           else "sdc_wf") in
   if fmaps_is_none then ret (bypass wf)
   else
     _ <- list_sort priority ;;
     fmaps <- deref ;;
     lift (compose fmaps wf))%state.
End Compose.


(** ** Reading inputs and results *)

(** The type tag of a fieldmap, when it has one and it is a string. *)
Definition tag_of (fmap : dict) : option string :=
  match lookup fmap "type" with
  | Some (Str tag) => Some tag
  | _ => None
  end.

(** The type tag as a string (empty where there is none). *)
Definition tag (fmap : dict) : string :=
  match tag_of fmap with
  | Some t => t
  | None => ""
  end.

Definition has_tag (fmap : dict) : bool :=
  match tag_of fmap with
  | Some _ => true
  | None => false
  end.

(** [fmap['type'] == tag] *)
Definition type_is (tag : string) (fmap : dict) : bool :=
  match lookup fmap "type" with
  | Some ty => eq_str ty tag
  | None => false
  end.

(** The type tag is in the catalog. *)
Definition known_type (fmap : dict) : bool :=
  match tag_of fmap with
  | Some tag => known tag
  | None => false
  end.

(** The fieldmap has a type tag and the catalog does not know it. *)
Definition unknown_type (fmap : dict) : bool :=
  match tag_of fmap with
  | Some tag => negb (known tag)
  | None => false
  end.

(** The rank of a fieldmap of known type (0 where [priority] raises). *)
Definition rank (fmap : dict) : nat :=
  match priority fmap with
  | Ok r => r
  | Raise _ => 0
  end.

(** [key in d] *)
Definition contains {V} (d : list (string * V)) (k : string) : bool :=
  match lookup d k with
  | Some _ => true
  | None => false
  end.

(** An EPI fieldmap has what [epi_polarities] reads of it. *)
Definition epi_complete (fmap : dict) : bool :=
  contains fmap "epi" &&
  match lookup fmap "metadata" with
  | Some (Dict meta) => contains meta "PhaseEncodingDirection"
  | _ => false
  end.

(** The keys that the block of the chosen fieldmap reads are there. *)
Definition inputs_present (fmaps : list dict) (fmap : dict) : bool :=
  if type_is "epi" fmap then forallb epi_complete (filter (type_is "epi") fmaps)
  else if type_is "fieldmap" fmap then
    contains fmap "fieldmap" && contains fmap "magnitude"
  else if type_is "phasediff" fmap then contains fmap "phasediff"
  else true.

Definition is_interface (n : node) : bool :=
  match n with
  | IdentityInterface _ _ => true
  | _ => false
  end.

Definition is_named (nm : string) (n : node) : bool :=
  match n with
  | IdentityInterface nm' _ => nm' =? nm
  | _ => false
  end.

Definition nodes (wf : Workflow) : list node :=
  flat_map (fun e => [src e; dst e]) (edges wf).

(** The fields of the interface node called [nm], if the graph has it. *)
Definition interface (wf : Workflow) (nm : string) : option (list string) :=
  match find (is_named nm) (nodes wf) with
  | Some (IdentityInterface _ fields) => Some fields
  | _ => None
  end.

(** What feeds the field [port] of the output node. *)
Definition drivers (wf : Workflow) (port : string) : list (node * string) :=
  map (fun e => (src e, src_port e))
    (filter (fun e => is_named "outputnode" (dst e) && (dst_port e =? port))
       (edges wf)).

(** The sub-workflows of the graph. *)
Definition subworkflows (wf : Workflow) : list node :=
  filter (fun n => negb (is_interface n)) (nodes wf).

(** An edge respects the outer interface: an interface node at its source
    is [inputnode], one at its target is [outputnode], and the port it
    names is a field of that node. *)
Definition respects_interface (e : edge) : Prop :=
  (is_interface (src e) = true ->
   src e = inputnode /\
   In (src_port e)
     ["name_source"; "bold_ref"; "bold_ref_brain"; "bold_mask"; "t1_brain";
      "t1_2_mni_reverse_transform"]) /\
  (is_interface (dst e) = true ->
   dst e = outputnode /\
   In (dst_port e)
     ["bold_ref"; "bold_mask"; "bold_ref_brain"; "out_warp"; "syn_bold_ref"]).

(** The input ports as the specification lists them. *)
Definition SPEC_INPUTS : list string :=
  ["name_source"; "bold_ref"; "bold_ref_brain"; "bold_mask"; "t1_brain";
   "t1_to_template_reverse_transform"].

Definition SPEC_OUTPUTS : list string :=
  ["bold_ref"; "bold_mask"; "bold_ref_brain"; "out_warp"; "syn_bold_ref"].

(** ** Sample fieldmaps *)

Definition phasediff_fmap : dict :=
  [("type", Str "phasediff");
   ("phasediff", Str "sub-03_phasediff.nii.gz");
   ("magnitude2", Str "sub-03_magnitude2.nii.gz");
   ("magnitude1", Str "sub-03_magnitude1.nii.gz")].

Definition epi_fmap : dict :=
  [("type", Str "epi");
   ("epi", Str "sub-03_dir-AP_epi.nii.gz");
   ("metadata", Dict [("PhaseEncodingDirection", "j-")])].

Definition fieldmap_fmap : dict :=
  [("type", Str "fieldmap");
   ("fieldmap", Str "sub-03_fieldmap.nii.gz");
   ("magnitude", Str "sub-03_magnitude.nii.gz")].

Definition syn_fmap : dict := [("type", Str "syn")].

(** A phase-difference fieldmap without magnitude images, and a direct
    fieldmap without any image. *)
Definition bare_phasediff_fmap : dict :=
  [("type", Str "phasediff"); ("phasediff", Str "sub-03_phasediff.nii.gz")].

Definition bare_fieldmap_fmap : dict := [("type", Str "fieldmap")].

Definition asl_fmap : dict := [("type", Str "asl")].

Definition sample_meta : dict := [("PhaseEncodingDirection", Str "j")].

(** [init_sdc_wf] on the sample metadata with the default arguments. *)
Definition sample_call : M Workflow :=
  init_sdc_wf sample_meta (Some "MNI152NLin2009cAsym") 1 false false true.

(** ** The edges of the [connect] calls, and more sample fieldmaps *)

(** Lines 214 to 221: the estimator into the unwarp sub-workflow. *)
Definition unwarp_edges (est unwarp : node) : list edge :=
  [Edge inputnode "name_source" unwarp "inputnode.name_source";
   Edge est "outputnode.fmap" unwarp "inputnode.fmap";
   Edge est "outputnode.fmap_ref" unwarp "inputnode.fmap_ref";
   Edge est "outputnode.fmap_mask" unwarp "inputnode.fmap_mask"].

(** Lines 230 to 235: the inputs of the fieldmap-less sub-workflow. *)
Definition syn_edges (syn : node) : list edge :=
  [Edge inputnode "t1_brain" syn "inputnode.t1_brain";
   Edge inputnode "t1_2_mni_reverse_transform" syn
     "inputnode.t1_2_mni_reverse_transform";
   Edge inputnode "bold_ref_brain" syn "inputnode.bold_ref"].

(** Lines 242 to 245: its report. *)
Definition report_edges (syn : node) : list edge :=
  [Edge syn "outputnode.out_warp_report" outputnode "syn_bold_ref"].

(** Lines 247 to 253: the four outputs. *)
Definition output_edges (unwarp : node) : list edge :=
  [Edge unwarp "outputnode.out_warp" outputnode "out_warp";
   Edge unwarp "outputnode.out_reference" outputnode "bold_ref";
   Edge unwarp "outputnode.out_reference_brain" outputnode "bold_ref_brain";
   Edge unwarp "outputnode.out_mask" outputnode "bold_mask"].

(** [pair] is what line 176 reads of an EPI fieldmap: its image and the
    phase-encoding direction of its metadata. *)
Definition polarity_of (fmap : dict) (pair : value * string) : Prop :=
  lookup fmap "epi" = Some (fst pair) /\
  exists meta, lookup fmap "metadata" = Some (Dict meta) /\
               lookup meta "PhaseEncodingDirection" = Some (snd pair).

(** The type tag of the fieldmaps of a rank. *)
Definition tag_of_rank (r : nat) : string :=
  match r with
  | 0 => "epi"
  | 1 => "fieldmap"
  | 2 => "phasediff"
  | 3 => "syn"
  | _ => ""
  end.

Definition is_syn_node (n : node) : bool :=
  match n with
  | SynSdc _ _ _ => true
  | _ => false
  end.

(** Which constructor built a node (the name, for the nodes that are
    given one). *)
Definition kind (n : node) : string :=
  match n with
  | IdentityInterface nm _ => nm
  | PepolarUnwarp nm _ _ _ => nm
  | FmapEstimator _ _ _ => "fmap_wf"
  | PhdiffEstimator _ _ => "phdiff_wf"
  | SdcUnwarp nm _ _ _ => nm
  | SynSdc _ _ _ => "syn_sdc_wf"
  end.

(** The edges of a workflow without the configuration of the nodes. *)
Definition plan (wf : Workflow) : list (string * string * string * string) :=
  map (fun e => (kind (src e), src_port e, kind (dst e), dst_port e))
    (edges wf).

Definition rmap {A B} (f : A -> B) (r : result A) : result B :=
  match r with
  | Ok a => Ok (f a)
  | Raise e => Raise e
  end.

(** What a call yields apart from the configuration of the sub-workflows:
    the exception, or the name, the method label and the plan of the
    workflow. *)
Definition outline (r : result Workflow)
  : result (string * option string * list (string * string * string * string))
  := rmap (fun wf => (name wf, sdc_method wf, plan wf)) r.

Definition epi_pa_fmap : dict :=
  [("type", Str "epi");
   ("epi", Str "sub-03_dir-PA_epi.nii.gz");
   ("metadata", Dict [("PhaseEncodingDirection", "j")])].

(** A record without a type, and one whose type is not a string. *)
Definition untyped_fmap : dict := [("epi", Str "sub-03_dir-AP_epi.nii.gz")].

Definition dict_typed_fmap : dict := [("type", Dict [("name", "epi")])].

(** * Properties *)

(** ** The error result *)

Lemma rbind_ok {A B} (c : result A) (k : A -> result B) (b : B) :
  rbind c k = Ok b -> exists a, c = Ok a /\ k a = Ok b.
Proof.
  destruct c as [a | e]; simpl; intros H; [eauto | discriminate].
Qed.

Lemma mapM_map {A B} (f : A -> result B) (g : A -> B) (l : list A) :
  Forall (fun x => f x = Ok (g x)) l -> mapM f l = Ok (map g l).
Proof.
  induction 1 as [| x l Hx _ IH]; simpl; [reflexivity |].
  now rewrite Hx, IH.
Qed.

Lemma mapM_raise {A B} (f : A -> result B) (g : A -> B) l1 x l2 e :
  Forall (fun y => f y = Ok (g y)) l1 -> f x = Raise e ->
  mapM f (l1 ++ x :: l2) = Raise e.
Proof.
  induction 1 as [| y l1 Hy _ IH]; simpl; intros Hx.
  - now rewrite Hx.
  - now rewrite Hy, IH.
Qed.

(** ** The stable sort *)

Section SortFacts.
Variables (A K : Type) (leb : K -> K -> bool) (key : A -> K).

Local Abbreviation le := (fun x y : A => leb (key x) (key y) = true).

Lemma insert_perm x l : Permutation (x :: l) (insert leb key x l).
Proof.
  induction l as [| y l IH]; simpl; [reflexivity |].
  destruct (leb (key x) (key y)); [reflexivity |].
  rewrite perm_swap. now constructor.
Qed.

Lemma sort_perm l : Permutation l (sort leb key l).
Proof.
  induction l as [| x l IH]; simpl; [reflexivity |].
  rewrite <- insert_perm. now constructor.
Qed.

(** Undecorating a sort of the pairs (key, element) gives the sort of
    the elements by their key. *)
Lemma insert_combine x l :
  insert leb fst (key x, x) (combine (map key l) l) =
  combine (map key (insert leb key x l)) (insert leb key x l).
Proof.
  induction l as [| y l IH]; simpl; [reflexivity |].
  destruct (leb (key x) (key y)); simpl; [reflexivity | now rewrite IH].
Qed.

Lemma sort_combine l :
  sort leb fst (combine (map key l) l) =
  combine (map key (sort leb key l)) (sort leb key l).
Proof.
  induction l as [| x l IH]; simpl; [reflexivity |].
  now rewrite IH, insert_combine.
Qed.

Lemma sort_decorated l :
  map snd (sort leb fst (combine (map key l) l)) = sort leb key l.
Proof.
  rewrite sort_combine. generalize (sort leb key l). clear.
  induction l; simpl; congruence.
Qed.

Hypothesis leb_total : forall a b, leb a b = true \/ leb b a = true.
Hypothesis leb_trans :
  forall a b c, leb a b = true -> leb b c = true -> leb a c = true.

Lemma insert_sorted x l :
  StronglySorted le l -> StronglySorted le (insert leb key x l).
Proof.
  induction 1 as [| y l Hl IH Hy]; simpl.
  - repeat constructor.
  - destruct (leb (key x) (key y)) eqn:E.
    + constructor; [now constructor |].
      constructor; [exact E |].
      eapply Forall_impl; [| exact Hy]. intros z Hz. cbv beta in *. eauto.
    + constructor; [exact IH |].
      eapply Permutation_Forall; [apply insert_perm |].
      constructor; [| exact Hy].
      cbv beta. destruct (leb_total (key x) (key y)); congruence.
Qed.

Lemma sort_sorted l : StronglySorted le (sort leb key l).
Proof.
  induction l; simpl; [constructor | now apply insert_sorted].
Qed.

(** Sorting a sorted list changes nothing. *)
Lemma insert_head x l : Forall (le x) l -> insert leb key x l = x :: l.
Proof.
  destruct 1 as [| y l Hy _]; simpl; [reflexivity |].
  cbv beta in Hy. now rewrite Hy.
Qed.

Lemma sort_fixed l : StronglySorted le l -> sort leb key l = l.
Proof.
  induction 1 as [| x l _ IH Hx]; simpl; [reflexivity |].
  rewrite IH. now apply insert_head.
Qed.

(** Stability: the elements a test on the key selects keep their order,
    provided the test cannot tell apart keys that are below each other. *)
Lemma insert_filter (p : K -> bool) x l :
  (forall y, In y l -> p (key x) = true -> p (key y) = true ->
             leb (key x) (key y) = true) ->
  filter (fun y => p (key y)) (insert leb key x l) =
  filter (fun y => p (key y)) (x :: l).
Proof.
  induction l as [| y l IH]; intros H; simpl; [reflexivity |].
  destruct (leb (key x) (key y)) eqn:E; simpl; [reflexivity |].
  rewrite IH by (intros; apply H; simpl; auto). simpl.
  destruct (p (key x)) eqn:Px, (p (key y)) eqn:Py; try reflexivity.
  rewrite (H y) in E by (simpl; auto). discriminate.
Qed.

Lemma sort_filter (p : K -> bool) l :
  (forall a b, p a = true -> p b = true -> leb a b = true) ->
  filter (fun y => p (key y)) (sort leb key l) =
  filter (fun y => p (key y)) l.
Proof.
  intros H. induction l as [| x l IH]; simpl; [reflexivity |].
  rewrite insert_filter by (intros; now apply H). simpl. now rewrite IH.
Qed.

(** The last element of a sorted list is above all others. *)
Lemma sorted_final l x :
  StronglySorted le l -> final l = Ok x -> Forall (fun y => le y x) l.
Proof.
  unfold final. intros Hs Hf.
  destruct (rev l) as [| z r] eqn:E; [discriminate |].
  injection Hf as ->.
  apply (f_equal (@rev A)) in E. rewrite rev_involutive in E. subst l.
  simpl in *. clear -Hs leb_total.
  induction (rev r) as [| y t IH]; simpl in *.
  - constructor; [| constructor].
    cbv beta. destruct (leb_total (key x) (key x)); assumption.
  - inversion Hs as [| ? ? Ht Hy]; subst.
    constructor; [| now apply IH].
    rewrite Forall_forall in Hy. apply Hy. apply in_or_app. simpl. auto.
Qed.

Hypothesis leb_antisym :
  forall a b, leb a b = true -> leb b a = true -> a = b.

(** With distinct keys, the sorted order is unique. *)
Lemma sorted_unique l l' :
  NoDup (map key l) -> Permutation l l' ->
  StronglySorted le l -> StronglySorted le l' -> l = l'.
Proof.
  revert l'. induction l as [| x l IH]; intros l' Hnd Hp Hs Hs'.
  - now apply Permutation_nil in Hp.
  - destruct l' as [| y l'].
    + symmetry in Hp. now apply Permutation_nil in Hp.
    + inversion Hnd as [| ? ? Hx Hnd']; subst.
      inversion Hs as [| ? ? Hl Hxl]; subst.
      inversion Hs' as [| ? ? Hl' Hyl']; subst.
      assert (x = y) as <-.
      { assert (In x (y :: l')) as Hin
          by (eapply Permutation_in; [exact Hp | simpl; auto]).
        assert (In y (x :: l)) as Hin'
          by (eapply Permutation_in; [symmetry; exact Hp | simpl; auto]).
        destruct Hin as [-> | Hin]; [reflexivity |].
        destruct Hin' as [-> | Hin']; [reflexivity |].
        rewrite Forall_forall in Hxl, Hyl'.
        assert (key x = key y) as E
          by (apply leb_antisym; [now apply Hxl | now apply Hyl']).
        exfalso. apply Hx. rewrite E. now apply in_map. }
      f_equal. apply IH; auto. eapply Permutation_cons_inv; exact Hp.
Qed.

Lemma sort_permutation_invariant l l' :
  NoDup (map key l) -> Permutation l l' ->
  sort leb key l = sort leb key l'.
Proof.
  intros Hnd Hp. apply sorted_unique; try apply sort_sorted.
  - eapply Permutation_NoDup; [| exact Hnd].
    apply Permutation_map, sort_perm.
  - rewrite <- (sort_perm l), <- (sort_perm l'). exact Hp.
Qed.
End SortFacts.

(** ** Orders on the keys *)

Lemma nat_leb_total a b : Nat.leb a b = true \/ Nat.leb b a = true.
Proof. rewrite !Nat.leb_le. lia. Qed.

Lemma nat_leb_trans a b c :
  Nat.leb a b = true -> Nat.leb b c = true -> Nat.leb a c = true.
Proof. rewrite !Nat.leb_le. lia. Qed.

Lemma ascii_compare_trans a b c :
  Ascii.compare a b = Lt -> Ascii.compare b c = Lt -> Ascii.compare a c = Lt.
Proof.
  unfold Ascii.compare. rewrite !N.compare_lt_iff. apply N.lt_trans.
Qed.

Lemma string_compare_trans s1 : forall s2 s3,
  String.compare s1 s2 = Lt -> String.compare s2 s3 = Lt ->
  String.compare s1 s3 = Lt.
Proof.
  induction s1 as [| a s1 IH]; intros [| b s2] [| c s3]; simpl;
    try discriminate; try reflexivity.
  destruct (Ascii.compare a b) eqn:Eab; try discriminate;
    destruct (Ascii.compare b c) eqn:Ebc; try discriminate; intros H12 H23.
  - apply Ascii.compare_eq_iff in Eab, Ebc. subst.
    rewrite (proj2 (N.compare_eq_iff _ _) eq_refl : Ascii.compare c c = Eq).
    eauto.
  - apply Ascii.compare_eq_iff in Eab. subst. now rewrite Ebc.
  - apply Ascii.compare_eq_iff in Ebc. subst. now rewrite Eab.
  - now rewrite (ascii_compare_trans _ _ _ Eab Ebc).
Qed.

Lemma string_leb_trans a b c :
  String.leb a b = true -> String.leb b c = true -> String.leb a c = true.
Proof.
  unfold String.leb.
  destruct (String.compare a b) eqn:Eab; try discriminate;
    destruct (String.compare b c) eqn:Ebc; try discriminate; intros _ _.
  - apply String.compare_eq_iff in Eab, Ebc. subst.
    fold (String.leb c c). now destruct (String.leb_total c c).
  - apply String.compare_eq_iff in Eab. subst. now rewrite Ebc.
  - apply String.compare_eq_iff in Ebc. subst. now rewrite Eab.
  - now rewrite (string_compare_trans _ _ _ Eab Ebc).
Qed.

(** ** The catalog and the type tags *)

Lemma known_cases t :
  known t = true ->
  t = "epi" \/ t = "fieldmap" \/ t = "phasediff" \/ t = "syn".
Proof.
  unfold known, FMAP_PRIORITY. simpl.
  destruct (String.eqb_spec "epi" t); [subst; auto |].
  destruct (String.eqb_spec "fieldmap" t); [subst; auto |].
  destruct (String.eqb_spec "phasediff" t); [subst; auto |].
  destruct (String.eqb_spec "syn" t); [subst; auto | discriminate].
Qed.

Lemma tag_of_lookup fmap t :
  tag_of fmap = Some t <-> lookup fmap "type" = Some (Str t).
Proof.
  unfold tag_of. destruct (lookup fmap "type") as [[s | d] |];
    split; intros H; try discriminate; injection H as ->; reflexivity.
Qed.

Lemma known_has_tag fmap : known_type fmap = true -> has_tag fmap = true.
Proof.
  unfold known_type, has_tag. now destruct (tag_of fmap).
Qed.

Lemma unknown_has_tag fmap : unknown_type fmap = true -> has_tag fmap = true.
Proof.
  unfold unknown_type, has_tag. now destruct (tag_of fmap).
Qed.

Lemma has_tag_lookup fmap :
  has_tag fmap = true -> lookup fmap "type" = Some (Str (tag fmap)).
Proof.
  unfold has_tag, tag. destruct (tag_of fmap) as [t |] eqn:E;
    [intros _; now apply tag_of_lookup | discriminate].
Qed.

Lemma known_type_tag fmap :
  has_tag fmap = true -> known_type fmap = known (tag fmap).
Proof.
  unfold has_tag, known_type, tag. now destruct (tag_of fmap).
Qed.

Lemma type_is_tag fmap t :
  has_tag fmap = true -> type_is t fmap = (tag fmap =? t).
Proof.
  intros H. unfold type_is. now rewrite (has_tag_lookup _ H).
Qed.

Lemma priority_known fmap :
  known_type fmap = true -> priority fmap = Ok (rank fmap).
Proof.
  intros H. pose proof (known_has_tag _ H) as Ht.
  rewrite (known_type_tag _ Ht) in H. unfold known in H.
  unfold rank, priority, getitem. rewrite (has_tag_lookup _ Ht).
  cbn [rbind hashable].
  destruct (lookup FMAP_PRIORITY (tag fmap)); [reflexivity | discriminate].
Qed.

Lemma priority_unknown fmap :
  unknown_type fmap = true -> priority fmap = Raise (KeyError (tag fmap)).
Proof.
  intros H. unfold priority, getitem.
  rewrite (has_tag_lookup _ (unknown_has_tag _ H)). cbn [rbind hashable].
  unfold unknown_type in H. unfold tag.
  destruct (tag_of fmap) as [t |]; [| discriminate].
  unfold known in H. now destruct (lookup FMAP_PRIORITY t).
Qed.

(** The rank tells the type of a fieldmap of known type. *)
Lemma rank_of_known fmap :
  known_type fmap = true ->
  (tag fmap = "epi" /\ rank fmap = 0) \/
  (tag fmap = "fieldmap" /\ rank fmap = 1) \/
  (tag fmap = "phasediff" /\ rank fmap = 2) \/
  (tag fmap = "syn" /\ rank fmap = 3).
Proof.
  intros H. pose proof (known_has_tag _ H) as Ht.
  unfold rank, priority, getitem. rewrite (has_tag_lookup _ Ht). simpl.
  rewrite (known_type_tag _ Ht) in H.
  destruct (known_cases _ H) as [-> | [-> | [-> | ->]]]; simpl; auto.
Qed.

(** ** The steps of [init_sdc_wf] *)

Section Steps.
Variables (bold_meta : dict) (template : option string) (omp_nthreads : nat)
          (debug fmap_bspline fmap_demean : bool).

Local Abbreviation init :=
  (init_sdc_wf bold_meta template omp_nthreads debug fmap_bspline
     fmap_demean).
Local Abbreviation run :=
  (compose bold_meta template omp_nthreads debug fmap_bspline fmap_demean).

(** Lines 145 to 169 on a list whose entries all carry a type tag. *)
Lemma init_tagged fmaps :
  Forall (fun f => has_tag f = true) fmaps ->
  init fmaps =
  if existsb known_type fmaps then
    match mapM priority fmaps with
    | Ok keys =>
        let sorted := map snd (sort Nat.leb fst (combine keys fmaps)) in
        (sorted, run sorted (new_workflow "sdc_wf"))
    | Raise e => (fmaps, Raise e)
    end
  else (fmaps, Ok (bypass (new_workflow "sdc_bypass_wf"))).
Proof.
  intros H. unfold init, init_sdc_wf, bind, deref, lift, list_sort, ret.
  rewrite (mapM_map _ (fun f => Str (tag f))).
  2:{ eapply Forall_impl; [| exact H]. intros f Hf. unfold getitem.
      now rewrite (has_tag_lookup _ Hf). }
  rewrite (mapM_map _ (fun v => match v with Str s => s | Dict _ => "" end)).
  2:{ rewrite Forall_map. eapply Forall_impl; [| exact H]. now intros. }
  rewrite map_map.
  assert (supported (map (fun f => tag f) fmaps) = existsb known_type fmaps)
    as ->.
  { unfold supported. induction H as [| f l Hf _ IH]; simpl; [reflexivity |].
    now rewrite IH, (known_type_tag _ Hf). }
  destruct (existsb known_type fmaps); simpl; [| reflexivity].
  now destruct (mapM priority fmaps).
Qed.

(** On a non-empty list of fieldmaps of known types the list is sorted in
    place by rank and the composition runs on the sorted list. *)
Lemma init_known fmaps :
  fmaps <> [] -> Forall (fun f => known_type f = true) fmaps ->
  init fmaps =
  (sort Nat.leb rank fmaps,
   run (sort Nat.leb rank fmaps) (new_workflow "sdc_wf")).
Proof.
  intros Hne H. rewrite init_tagged.
  2:{ eapply Forall_impl; [| exact H]. apply known_has_tag. }
  assert (existsb known_type fmaps = true) as ->.
  { destruct H as [| f l Hf _]; [congruence | simpl; now rewrite Hf]. }
  rewrite (mapM_map _ rank).
  2:{ eapply Forall_impl; [| exact H]. apply priority_known. }
  simpl. now rewrite sort_decorated.
Qed.

(** An entry of unknown type next to one of known type makes the key of
    the sort raise; the list stays as it was. *)
Lemma init_mixed l1 x l2 :
  Forall (fun f => known_type f = true) l1 -> unknown_type x = true ->
  Forall (fun f => has_tag f = true) l2 ->
  existsb known_type (l1 ++ x :: l2) = true ->
  init (l1 ++ x :: l2) = (l1 ++ x :: l2, Raise (KeyError (tag x))).
Proof.
  intros H1 Hx H2 Hk. rewrite init_tagged.
  2:{ apply Forall_app. split.
      - eapply Forall_impl; [| exact H1]. apply known_has_tag.
      - constructor; [now apply unknown_has_tag | exact H2]. }
  rewrite Hk. rewrite (mapM_raise _ rank) with (e := KeyError (tag x)).
  - reflexivity.
  - eapply Forall_impl; [| exact H1]. apply priority_known.
  - now apply priority_unknown.
Qed.

(** No entry of known type: the bypass. *)
Lemma init_unknown fmaps :
  Forall (fun f => unknown_type f = true) fmaps ->
  init fmaps = (fmaps, Ok (bypass (new_workflow "sdc_bypass_wf"))).
Proof.
  intros H. rewrite init_tagged.
  2:{ eapply Forall_impl; [| exact H]. apply unknown_has_tag. }
  assert (existsb known_type fmaps = false) as ->; [| reflexivity].
  induction H as [| f l Hf _ IH]; simpl; [reflexivity |].
  rewrite IH, orb_false_r. unfold unknown_type, known_type in *.
  destruct (tag_of f); [now destruct (known s) | discriminate].
Qed.
End Steps.

(** ** The head and the end of the sorted list *)

Lemma sort_nil {A} (key : A -> nat) l : sort Nat.leb key l = [] -> l = [].
Proof.
  intros H. pose proof (sort_perm Nat.leb key l) as Hp. rewrite H in Hp.
  now apply Permutation_sym, Permutation_nil in Hp.
Qed.

(** The first element of the sorted list is the earliest element of the
    input among those of least key. *)
Lemma sort_head {A} (key : A -> nat) l : forall best rest,
  sort Nat.leb key l = best :: rest ->
  exists l1 l2, l = l1 ++ best :: l2 /\
    Forall (fun x => key best < key x) l1 /\
    Forall (fun x => key best <= key x) l2.
Proof.
  induction l as [| x l IH]; simpl; intros best rest H; [discriminate |].
  destruct (sort Nat.leb key l) as [| b r] eqn:E.
  - apply sort_nil in E. subst l. injection H as <- <-.
    exists [], []. repeat constructor.
  - destruct (IH b r eq_refl) as (l1 & l2 & -> & H1 & H2). simpl in H.
    destruct (Nat.leb_spec (key x) (key b)) as [Hle | Hlt];
      injection H as <- <-.
    + exists [], (l1 ++ b :: l2). repeat split; [constructor |].
      apply Forall_app. split; [| constructor].
      * eapply Forall_impl; [| exact H1]. simpl. intros. lia.
      * exact Hle.
      * eapply Forall_impl; [| exact H2]. simpl. intros. lia.
    + exists (x :: l1), l2. repeat split; [| exact H2].
      constructor; [lia | exact H1].
Qed.

Lemma final_in {A} (l : list A) :
  l <> [] -> exists x, final l = Ok x /\ In x l.
Proof.
  intros H. unfold final. destruct (rev l) as [| x r] eqn:E.
  - apply (f_equal (@rev A)) in E. rewrite rev_involutive in E. contradiction.
  - exists x. split; [reflexivity |]. apply in_rev. rewrite E. simpl. auto.
Qed.

Lemma final_ok_in {A} (l : list A) x : final l = Ok x -> In x l.
Proof.
  unfold final. destruct (rev l) as [| y r] eqn:E; [discriminate |].
  intros H. injection H as ->. apply in_rev. rewrite E. simpl. auto.
Qed.

Lemma final_single {A} (l : list A) x y :
  List.length (x :: l) = 1 -> final (x :: l) = Ok y -> y = x.
Proof.
  destruct l; [| discriminate]. unfold final. simpl. congruence.
Qed.

(** ** The three blocks, by the type tag *)

Lemma getitem_type fmap :
  has_tag fmap = true -> getitem fmap "type" = Ok (Str (tag fmap)).
Proof.
  intros H. unfold getitem. now rewrite (has_tag_lookup _ H).
Qed.

Section Blocks.
Variables (bold_meta : dict) (template : option string) (omp_nthreads : nat)
          (debug fmap_bspline fmap_demean : bool).

Lemma pepolar_path_tag fmaps fmap fr :
  has_tag fmap = true ->
  pepolar_path bold_meta omp_nthreads fmaps fmap fr =
  if tag fmap =? "epi" then
    epi_fmaps <- epi_polarities fmaps ;;
    Ok {| workflow := set_sdc_method (workflow fr) PEPOLAR_METHOD;
          sdc_unwarp_wf :=
            Some (PepolarUnwarp "pepolar_unwarp_wf" bold_meta epi_fmaps
                    omp_nthreads) |}
  else Ok fr.
Proof.
  intros H. unfold pepolar_path. now rewrite (getitem_type _ H).
Qed.

Lemma fieldmap_path_tag fmap fr :
  has_tag fmap = true ->
  fieldmap_path omp_nthreads debug fmap_bspline fmap_demean fmap fr =
  let unwarp := SdcUnwarp "sdc_unwarp_wf" omp_nthreads fmap_demean debug in
  let wired est :=
    {| workflow :=
         connect
           (set_sdc_method (workflow fr)
              ("FMB (" ++ tag fmap ++ "-based)")%string)
           [(inputnode, unwarp, [("name_source", "inputnode.name_source")]);
            (est, unwarp,
             [("outputnode.fmap", "inputnode.fmap");
              ("outputnode.fmap_ref", "inputnode.fmap_ref");
              ("outputnode.fmap_mask", "inputnode.fmap_mask")])];
       sdc_unwarp_wf := Some unwarp |} in
  if tag fmap =? "fieldmap" then
    fieldmap <- getitem fmap "fieldmap" ;;
    magnitude <- getitem fmap "magnitude" ;;
    Ok (wired (FmapEstimator omp_nthreads fmap_bspline
                 [("fieldmap", One fieldmap); ("magnitude", One magnitude)]))
  else if tag fmap =? "phasediff" then
    phasediff <- getitem fmap "phasediff" ;;
    Ok (wired (PhdiffEstimator omp_nthreads
                 [("phasediff", One phasediff);
                  ("magnitude", Many (magnitudes fmap))]))
  else Ok fr.
Proof.
  intros H. unfold fieldmap_path. rewrite (getitem_type _ H).
  cbn [rbind eq_str percent_s].
  destruct (String.eqb_spec (tag fmap) "fieldmap") as [E | _].
  - rewrite E. cbn -[magnitudes].
    destruct (getitem fmap "fieldmap"); [| reflexivity]. cbn -[magnitudes].
    destruct (getitem fmap "magnitude"); reflexivity.
  - destruct (String.eqb_spec (tag fmap) "phasediff") as [E | _];
      [| reflexivity].
    cbn -[magnitudes]. destruct (getitem fmap "phasediff"); reflexivity.
Qed.

Lemma syn_path_tag fmaps last_fmap fr :
  final fmaps = Ok last_fmap -> has_tag last_fmap = true ->
  syn_path bold_meta template omp_nthreads fmaps fr =
  let syn := SynSdc template (lookup bold_meta "PhaseEncodingDirection")
               omp_nthreads in
  let wf :=
    connect (workflow fr)
      [(inputnode, syn,
        [("t1_brain", "inputnode.t1_brain");
         ("t1_2_mni_reverse_transform",
          "inputnode.t1_2_mni_reverse_transform");
         ("bold_ref_brain", "inputnode.bold_ref")])] in
  if tag last_fmap =? "syn" then
    if Nat.eqb (List.length fmaps) 1 then
      Ok {| workflow := set_sdc_method wf SYN_METHOD;
            sdc_unwarp_wf := Some syn |}
    else
      Ok {| workflow :=
              connect wf
                [(syn, outputnode,
                  [("outputnode.out_warp_report", "syn_bold_ref")])];
            sdc_unwarp_wf := sdc_unwarp_wf fr |}
  else Ok fr.
Proof.
  intros Hf H. unfold syn_path. rewrite Hf. cbn [rbind].
  now rewrite (getitem_type _ H).
Qed.
End Blocks.

Lemma StronglySorted_weaken {A} (R S : A -> A -> Prop) l :
  (forall a b, R a b -> S a b) -> StronglySorted R l -> StronglySorted S l.
Proof.
  intros H. induction 1 as [| x l _ IH Hx]; constructor; [exact IH |].
  eapply Forall_impl; [| exact Hx]. auto.
Qed.

Lemma sort_rank_sorted (l : list dict) :
  StronglySorted (fun a b => rank a <= rank b) (sort Nat.leb rank l).
Proof.
  eapply StronglySorted_weaken;
    [| apply sort_sorted; [apply nat_leb_total | apply nat_leb_trans]].
  intros a b. apply Nat.leb_le.
Qed.

Lemma sort_known (l : list dict) :
  Forall (fun f => known_type f = true) l ->
  Forall (fun f => known_type f = true) (sort Nat.leb rank l).
Proof.
  intros H. eapply Permutation_Forall; [apply sort_perm | exact H].
Qed.

(** In a list of fieldmaps of known types sorted by rank, the last one is
    a ['syn'] exactly when some entry is. *)
Lemma sorted_last_syn (l : list dict) last_fmap f :
  Forall (fun f => known_type f = true) l ->
  StronglySorted (fun a b => rank a <= rank b) l ->
  final l = Ok last_fmap -> In f l -> tag f = "syn" -> tag last_fmap = "syn".
Proof.
  intros Hk Hs Hf Hin Ht.
  assert (rank f <= rank last_fmap) as Hle.
  { assert (Forall (fun y => Nat.leb (rank y) (rank last_fmap) = true) l) as H.
    { apply sorted_final; [apply nat_leb_total | | exact Hf].
      eapply StronglySorted_weaken; [| exact Hs].
      intros a b. apply Nat.leb_le. }
    rewrite Forall_forall in H. apply Nat.leb_le. now apply H. }
  rewrite Forall_forall in Hk.
  destruct (rank_of_known _ (Hk _ Hin)) as [[E _] | [[E _] | [[E _] | [_ Hr]]]];
    try congruence.
  destruct (rank_of_known _ (Hk _ (final_ok_in _ Hf)))
    as [[_ E] | [[_ E] | [[_ E] | [E _]]]]; try lia. exact E.
Qed.

(** * The claims *)

(** C2.  The code does not discard entries of unknown type: as soon as one
    entry has a type tag of the catalog, the list is sorted as it is, and
    the key of the sort looks every tag up in [FMAP_PRIORITY].  On a list
    that holds an entry of known type and whose first entry of unknown
    type is [x], the call raises [KeyError] on the tag of [x], returns no
    workflow and leaves the list as it was. *)
Theorem unknown_type_next_to_known_raises :
  forall bold_meta template omp_nthreads debug fmap_bspline fmap_demean
         l1 x l2,
    Forall (fun f => known_type f = true) l1 ->
    unknown_type x = true ->
    Forall (fun f => has_tag f = true) l2 ->
    existsb known_type (l1 ++ x :: l2) = true ->
    init_sdc_wf bold_meta template omp_nthreads debug fmap_bspline fmap_demean
      (l1 ++ x :: l2) =
    (l1 ++ x :: l2, Raise (KeyError (tag x))).
Proof.
  intros bold_meta template omp_nthreads debug fmap_bspline fmap_demean
    l1 x l2 H1 Hx H2 Hk.
  now apply init_mixed.
Qed.

Lemma unknown_type_next_to_known_raises_witness :
  Forall (fun f => known_type f = true) [phasediff_fmap] /\
  unknown_type asl_fmap = true /\
  Forall (fun f => has_tag f = true) [syn_fmap] /\
  existsb known_type [phasediff_fmap; asl_fmap; syn_fmap] = true /\
  sample_call [phasediff_fmap; asl_fmap; syn_fmap] =
  ([phasediff_fmap; asl_fmap; syn_fmap], Raise (KeyError "asl")).
Proof.
  assert (Forall (fun f => known_type f = true) [phasediff_fmap]) as Hk
    by (repeat constructor).
  assert (unknown_type asl_fmap = true) as Hx by reflexivity.
  assert (Forall (fun f : dict => has_tag f = true) [syn_fmap]) as H2
    by (repeat constructor).
  assert (existsb known_type [phasediff_fmap; asl_fmap; syn_fmap] = true)
    as He by reflexivity.
  repeat (split; [assumption |]).
  exact (@unknown_type_next_to_known_raises sample_meta
           (Some "MNI152NLin2009cAsym") 1 false false true
           [phasediff_fmap] asl_fmap [syn_fmap] Hk Hx H2 He).
Defined.

Lemma type_is_inv t fmap :
  type_is t fmap = true -> has_tag fmap = true /\ tag fmap = t.
Proof.
  unfold type_is, has_tag, tag, tag_of.
  destruct (lookup fmap "type") as [[s | d] |]; simpl; try discriminate.
  intros H. apply String.eqb_eq in H. auto.
Qed.

Lemma type_is_known t fmap :
  known t = true -> type_is t fmap = true -> known_type fmap = true.
Proof.
  intros Hk H. destruct (type_is_inv _ _ H) as [Ht E].
  rewrite (known_type_tag _ Ht). congruence.
Qed.

(** C4.  A list that holds nothing but one ['syn'] fieldmap yields the
    fallback alone: its sub-workflow feeds the four outer outputs, the
    method label is the one of the fallback and nothing feeds
    [syn_bold_ref].  An entry of unknown type next to it is not discarded,
    though: the call then raises [KeyError] on that tag. *)
Theorem fallback_only_unless_unknown_type :
  forall bold_meta template omp_nthreads debug fmap_bspline fmap_demean f,
    type_is "syn" f = true ->
    let init := init_sdc_wf bold_meta template omp_nthreads debug
                  fmap_bspline fmap_demean in
    let syn := SynSdc template (lookup bold_meta "PhaseEncodingDirection")
                 omp_nthreads in
    (exists wf,
        init [f] = ([f], Ok wf) /\
        name wf = "sdc_wf" /\
        sdc_method wf = Some SYN_METHOD /\
        edges wf =
        [Edge inputnode "t1_brain" syn "inputnode.t1_brain";
         Edge inputnode "t1_2_mni_reverse_transform" syn
           "inputnode.t1_2_mni_reverse_transform";
         Edge inputnode "bold_ref_brain" syn "inputnode.bold_ref";
         Edge syn "outputnode.out_warp" outputnode "out_warp";
         Edge syn "outputnode.out_reference" outputnode "bold_ref";
         Edge syn "outputnode.out_reference_brain" outputnode "bold_ref_brain";
         Edge syn "outputnode.out_mask" outputnode "bold_mask"] /\
        (forall n, In n (subworkflows wf) <-> n = syn) /\
        drivers wf "syn_bold_ref" = []) /\
    (forall x, unknown_type x = true ->
               init [f; x] = ([f; x], Raise (KeyError (tag x)))).
Proof.
  intros bold_meta template omp_nthreads debug fmap_bspline fmap_demean f Hf
    init syn.
  destruct (type_is_inv _ _ Hf) as [Ht E].
  pose proof (type_is_known "syn" f eq_refl Hf) as Hk.
  split.
  - eexists. split.
    + unfold init. rewrite init_known by (try discriminate; now constructor).
      cbn [sort fold_right insert]. unfold compose. cbn [first rbind].
      rewrite pepolar_path_tag by assumption.
      rewrite E. cbn [String.eqb Ascii.eqb Bool.eqb rbind].
      rewrite fieldmap_path_tag by assumption.
      rewrite E. cbn [String.eqb Ascii.eqb Bool.eqb rbind].
      erewrite syn_path_tag by (try reflexivity; assumption).
      rewrite E. cbn. reflexivity.
    + cbn. repeat split; try (intros; subst; auto; fail).
      intros H. repeat (destruct H as [<- | H]; [reflexivity |]). tauto.
  - intros x Hx.
    apply (@init_mixed bold_meta template omp_nthreads debug fmap_bspline
             fmap_demean [f] x []); auto.
    simpl. now rewrite Hk.
Qed.

Lemma fallback_only_unless_unknown_type_witness :
  type_is "syn" syn_fmap = true /\
  sample_call [syn_fmap; asl_fmap] =
  ([syn_fmap; asl_fmap], Raise (KeyError "asl")).
Proof.
  assert (type_is "syn" syn_fmap = true) as H by reflexivity.
  split; [exact H |].
  exact (proj2 (@fallback_only_unless_unknown_type sample_meta
                  (Some "MNI152NLin2009cAsym") 1 false false true
                  syn_fmap H) asl_fmap eq_refl).
Defined.

(** C5.  A list that is empty or holds only fieldmaps of unknown type
    yields the bypass workflow, the same as the empty list does: the
    outputs [bold_ref], [bold_mask] and [bold_ref_brain] come from the
    inputs of the same name, nothing feeds [out_warp] or [syn_bold_ref],
    the graph has no sub-workflow and the list stays as it was. *)
Theorem bypass_when_no_known_type :
  forall bold_meta template omp_nthreads debug fmap_bspline fmap_demean fmaps,
    Forall (fun f => unknown_type f = true) fmaps ->
    let init := init_sdc_wf bold_meta template omp_nthreads debug
                  fmap_bspline fmap_demean in
    exists wf,
      init fmaps = (fmaps, Ok wf) /\
      init [] = ([], Ok wf) /\
      name wf = "sdc_bypass_wf" /\
      sdc_method wf = None /\
      edges wf =
      [Edge inputnode "bold_ref" outputnode "bold_ref";
       Edge inputnode "bold_mask" outputnode "bold_mask";
       Edge inputnode "bold_ref_brain" outputnode "bold_ref_brain"] /\
      drivers wf "bold_ref" = [(inputnode, "bold_ref")] /\
      drivers wf "bold_mask" = [(inputnode, "bold_mask")] /\
      drivers wf "bold_ref_brain" = [(inputnode, "bold_ref_brain")] /\
      drivers wf "out_warp" = [] /\
      drivers wf "syn_bold_ref" = [] /\
      subworkflows wf = [].
Proof.
  intros bold_meta template omp_nthreads debug fmap_bspline fmap_demean fmaps
    H init.
  exists (bypass (new_workflow "sdc_bypass_wf")).
  split; [now apply init_unknown |].
  split; [now apply init_unknown |].
  repeat split.
Qed.

Lemma bypass_when_no_known_type_witness :
  Forall (fun f => unknown_type f = true) [asl_fmap] /\
  exists wf,
    sample_call [asl_fmap] = ([asl_fmap], Ok wf) /\
    sample_call [] = ([], Ok wf) /\
    name wf = "sdc_bypass_wf" /\
    sdc_method wf = None /\
    edges wf =
    [Edge inputnode "bold_ref" outputnode "bold_ref";
     Edge inputnode "bold_mask" outputnode "bold_mask";
     Edge inputnode "bold_ref_brain" outputnode "bold_ref_brain"] /\
    drivers wf "bold_ref" = [(inputnode, "bold_ref")] /\
    drivers wf "bold_mask" = [(inputnode, "bold_mask")] /\
    drivers wf "bold_ref_brain" = [(inputnode, "bold_ref_brain")] /\
    drivers wf "out_warp" = [] /\
    drivers wf "syn_bold_ref" = [] /\
    subworkflows wf = [].
Proof.
  assert (Forall (fun f => unknown_type f = true) [asl_fmap]) as H
    by (repeat constructor).
  split; [exact H |].
  exact (@bypass_when_no_known_type sample_meta (Some "MNI152NLin2009cAsym")
           1 false false true [asl_fmap] H).
Defined.

(** ** A phase-difference fieldmap as the chosen one *)

Lemma find_skip {A} (p : A -> bool) l1 b l2 :
  Forall (fun x => p x = false) l1 -> p b = true ->
  find p (l1 ++ b :: l2) = Some b.
Proof.
  induction 1 as [| x l1 Hx _ IH]; simpl; intros Hb.
  - now rewrite Hb.
  - rewrite Hx. auto.
Qed.

(** The workflow that [compose] builds from a sorted list headed by a
    ['phasediff'] fieldmap with its ['phasediff'] image: the estimator and
    the unwarp sub-workflow, the report of the fallback when the list ends
    with a ['syn'] entry, and the four outputs from the unwarp. *)
Lemma compose_phasediff bold_meta template omp_nthreads debug fmap_bspline
    fmap_demean best rest p last_fmap wf0 :
  has_tag best = true -> tag best = "phasediff" ->
  lookup best "phasediff" = Some p ->
  final (best :: rest) = Ok last_fmap -> has_tag last_fmap = true ->
  let est := PhdiffEstimator omp_nthreads
               [("phasediff", One p); ("magnitude", Many (magnitudes best))] in
  let unwarp := SdcUnwarp "sdc_unwarp_wf" omp_nthreads fmap_demean debug in
  let syn := SynSdc template (lookup bold_meta "PhaseEncodingDirection")
               omp_nthreads in
  let primary :=
    connect (set_sdc_method wf0 "FMB (phasediff-based)")
      [(inputnode, unwarp, [("name_source", "inputnode.name_source")]);
       (est, unwarp,
        [("outputnode.fmap", "inputnode.fmap");
         ("outputnode.fmap_ref", "inputnode.fmap_ref");
         ("outputnode.fmap_mask", "inputnode.fmap_mask")])] in
  let reported :=
    connect
      (connect primary
         [(inputnode, syn,
           [("t1_brain", "inputnode.t1_brain");
            ("t1_2_mni_reverse_transform",
             "inputnode.t1_2_mni_reverse_transform");
            ("bold_ref_brain", "inputnode.bold_ref")])])
      [(syn, outputnode, [("outputnode.out_warp_report", "syn_bold_ref")])] in
  compose bold_meta template omp_nthreads debug fmap_bspline fmap_demean
    (best :: rest) wf0 =
  Ok (connect (if tag last_fmap =? "syn" then reported else primary)
        [(unwarp, outputnode,
          [("outputnode.out_warp", "out_warp");
           ("outputnode.out_reference", "bold_ref");
           ("outputnode.out_reference_brain", "bold_ref_brain");
           ("outputnode.out_mask", "bold_mask")])]).
Proof.
  intros Ht E Hp Hf Hl. unfold compose. cbn [first rbind].
  rewrite pepolar_path_tag by assumption.
  rewrite E. cbn [String.eqb Ascii.eqb Bool.eqb rbind].
  rewrite fieldmap_path_tag by assumption.
  rewrite E. cbn [String.eqb Ascii.eqb Bool.eqb rbind].
  unfold getitem. rewrite Hp. cbn [rbind].
  erewrite syn_path_tag by eassumption.
  destruct (String.eqb_spec (tag last_fmap) "syn") as [Es | _].
  - destruct rest as [| r rest].
    + unfold final in Hf. simpl in Hf. injection Hf as <-. congruence.
    + cbn -[magnitudes]. reflexivity.
  - cbn -[magnitudes]. reflexivity.
Qed.

(** C3, as the code has it.  The claim fails next to a fieldmap of higher
    priority: with an ['epi'] entry in the list the primary path is the
    PEPOLAR one, whatever ['phasediff'] and ['syn'] entries follow. *)
Lemma phasediff_not_primary_next_to_epi :
  let fmaps := [epi_fmap; phasediff_fmap; syn_fmap] in
  existsb (type_is "phasediff") fmaps = true /\
  existsb (type_is "syn") fmaps = true /\
  exists wf,
    snd (sample_call fmaps) = Ok wf /\
    sdc_method wf = Some PEPOLAR_METHOD /\
    drivers wf "out_warp" =
    [(PepolarUnwarp "pepolar_unwarp_wf" sample_meta
        [(Str "sub-03_dir-AP_epi.nii.gz", "j-")] 1, "outputnode.out_warp")] /\
    forall n, In n (subworkflows wf) ->
              match n with
              | PhdiffEstimator _ _ | SdcUnwarp _ _ _ _ => False
              | _ => True
              end.
Proof.
  split; [reflexivity |]. split; [reflexivity |].
  eexists. split; [vm_compute; reflexivity |].
  split; [reflexivity |]. split; [reflexivity |].
  intros n H. vm_compute in H.
  repeat (destruct H as [<- | H]; [exact I |]). contradiction.
Qed.

(** C3, amended.  On a list of fieldmaps of known types without ['epi'] or
    ['fieldmap'] entries that holds a ['syn'] entry and whose first
    ['phasediff'] entry [pd] has its ['phasediff'] image, the call returns
    the workflow of the phase-difference path with the report of the
    fallback: estimator and unwarp are built from [pd], only the report
    output of the fallback reaches [syn_bold_ref], and [out_warp],
    [bold_ref], [bold_ref_brain] and [bold_mask] come from the unwarp
    sub-workflow. *)
Theorem phasediff_primary_with_syn_report :
  forall bold_meta template omp_nthreads debug fmap_bspline fmap_demean
         fmaps pd p,
    Forall (fun f => known_type f = true) fmaps ->
    forallb (fun f => negb (type_is "epi" f) && negb (type_is "fieldmap" f))
      fmaps = true ->
    find (type_is "phasediff") fmaps = Some pd ->
    existsb (type_is "syn") fmaps = true ->
    lookup pd "phasediff" = Some p ->
    let est := PhdiffEstimator omp_nthreads
                 [("phasediff", One p); ("magnitude", Many (magnitudes pd))] in
    let unwarp := SdcUnwarp "sdc_unwarp_wf" omp_nthreads fmap_demean debug in
    let syn := SynSdc template (lookup bold_meta "PhaseEncodingDirection")
                 omp_nthreads in
    exists wf,
      snd (init_sdc_wf bold_meta template omp_nthreads debug fmap_bspline
             fmap_demean fmaps) = Ok wf /\
      name wf = "sdc_wf" /\
      sdc_method wf = Some "FMB (phasediff-based)" /\
      edges wf =
      [Edge inputnode "name_source" unwarp "inputnode.name_source";
       Edge est "outputnode.fmap" unwarp "inputnode.fmap";
       Edge est "outputnode.fmap_ref" unwarp "inputnode.fmap_ref";
       Edge est "outputnode.fmap_mask" unwarp "inputnode.fmap_mask";
       Edge inputnode "t1_brain" syn "inputnode.t1_brain";
       Edge inputnode "t1_2_mni_reverse_transform" syn
         "inputnode.t1_2_mni_reverse_transform";
       Edge inputnode "bold_ref_brain" syn "inputnode.bold_ref";
       Edge syn "outputnode.out_warp_report" outputnode "syn_bold_ref";
       Edge unwarp "outputnode.out_warp" outputnode "out_warp";
       Edge unwarp "outputnode.out_reference" outputnode "bold_ref";
       Edge unwarp "outputnode.out_reference_brain" outputnode
         "bold_ref_brain";
       Edge unwarp "outputnode.out_mask" outputnode "bold_mask"] /\
      drivers wf "syn_bold_ref" = [(syn, "outputnode.out_warp_report")] /\
      drivers wf "out_warp" = [(unwarp, "outputnode.out_warp")] /\
      drivers wf "bold_ref" = [(unwarp, "outputnode.out_reference")] /\
      drivers wf "bold_ref_brain" =
      [(unwarp, "outputnode.out_reference_brain")] /\
      drivers wf "bold_mask" = [(unwarp, "outputnode.out_mask")].
Proof.
  intros bold_meta template omp_nthreads debug fmap_bspline fmap_demean
    fmaps pd p Hk Hno Hpd Hsyn Hp est unwarp syn.
  assert (fmaps <> []) as Hne by (intros ->; discriminate).
  rewrite init_known by assumption. cbn [snd].
  pose proof (sort_rank_sorted fmaps) as Hs.
  pose proof (sort_perm Nat.leb rank fmaps) as Hperm.
  pose proof (sort_known Hk) as Hks.
  destruct (sort Nat.leb rank fmaps) as [| best rest] eqn:E.
  { apply sort_nil in E. contradiction. }
  destruct (sort_head rank fmaps E) as (l1 & l2 & Hl & H1 & H2).
  inversion Hks as [| ? ? Hkb _]; subst.
  (* the head of the sorted list is a phasediff fieldmap *)
  destruct (find_some _ _ Hpd) as [Hin Hty].
  destruct (type_is_inv _ _ Hty) as [Htp Etp].
  assert (rank pd = 2) as Hrp.
  { rewrite Forall_forall in Hk.
    destruct (rank_of_known _ (Hk _ Hin))
      as [[E' _] | [[E' _] | [[_ E'] | [E' _]]]]; congruence. }
  assert (rank best <= 2) as Hle.
  { rewrite <- Hrp. apply in_app_or in Hin. rewrite Forall_forall in H1, H2.
    destruct Hin as [Hin | [<- | Hin]]; [apply H1 in Hin; lia | lia | auto]. }
  assert (In best (l1 ++ best :: l2)) as Hinb
    by (apply in_or_app; simpl; auto).
  assert (tag best = "phasediff" /\ rank best = 2) as [Eb Hrb].
  { rewrite forallb_forall in Hno. specialize (Hno _ Hinb).
    apply andb_prop in Hno. destruct Hno as [He Hf].
    rewrite (type_is_tag _ _ (known_has_tag _ Hkb)) in He.
    rewrite (type_is_tag _ _ (known_has_tag _ Hkb)) in Hf.
    destruct (rank_of_known _ Hkb) as [[E' ?] | [[E' ?] | [? | [? ?]]]];
      try (rewrite E' in *; discriminate); [assumption | lia]. }
  assert (pd = best) as ->.
  { rewrite (@find_skip _ (type_is "phasediff") l1 best l2) in Hpd.
    - congruence.
    - rewrite Forall_forall in H1 |- *. intros x Hx.
      destruct (type_is "phasediff" x) eqn:Ex; [| reflexivity].
      destruct (type_is_inv _ _ Ex) as [Htx Etx].
      assert (known_type x = true) as Hkx.
      { rewrite Forall_forall in Hk. apply Hk. apply in_or_app. auto. }
      specialize (H1 _ Hx).
      destruct (rank_of_known _ Hkx)
        as [[E' ?] | [[E' ?] | [[E' ?] | [E' ?]]]]; try congruence; lia.
    - rewrite (type_is_tag _ _ (known_has_tag _ Hkb)), Eb. reflexivity. }
  (* the sorted list ends with a syn fieldmap *)
  destruct (@final_in _ (best :: rest)) as (last_fmap & Hf & Hinl);
    [discriminate |].
  assert (tag last_fmap = "syn") as El.
  { apply existsb_exists in Hsyn. destruct Hsyn as (s & Hins & Hs').
    destruct (type_is_inv _ _ Hs') as [_ Es].
    apply (@sorted_last_syn (best :: rest) last_fmap s Hks Hs Hf);
      [eapply Permutation_in; eassumption | exact Es]. }
  assert (has_tag last_fmap = true) as Htl.
  { apply known_has_tag. rewrite Forall_forall in Hks. now apply Hks. }
  erewrite compose_phasediff by eassumption. rewrite El.
  eexists. split; [reflexivity |]. cbn -[magnitudes]. repeat split.
Qed.

Lemma phasediff_primary_with_syn_report_witness :
  let fmaps := [syn_fmap; phasediff_fmap] in
  let unwarp := SdcUnwarp "sdc_unwarp_wf" 1 true false in
  Forall (fun f => known_type f = true) fmaps /\
  find (type_is "phasediff") fmaps = Some phasediff_fmap /\
  existsb (type_is "syn") fmaps = true /\
  exists wf,
    snd (sample_call fmaps) = Ok wf /\
    sdc_method wf = Some "FMB (phasediff-based)" /\
    drivers wf "out_warp" = [(unwarp, "outputnode.out_warp")].
Proof.
  intros fmaps unwarp.
  assert (Forall (fun f => known_type f = true) fmaps) as Hk
    by (repeat constructor).
  assert (find (type_is "phasediff") fmaps = Some phasediff_fmap) as Hpd
    by reflexivity.
  assert (existsb (type_is "syn") fmaps = true) as Hsyn by reflexivity.
  repeat (split; [assumption |]).
  destruct (@phasediff_primary_with_syn_report sample_meta
              (Some "MNI152NLin2009cAsym") 1 false false true fmaps
              phasediff_fmap (Str "sub-03_phasediff.nii.gz")
              Hk eq_refl Hpd Hsyn eq_refl)
    as (wf & Hwf & _ & Hm & _ & _ & Hw & _).
  exists wf. repeat split; assumption.
Defined.

(** ** The magnitude images of a phase-difference fieldmap *)

Lemma StronglySorted_filter {A} (R : A -> A -> Prop) (p : A -> bool) l :
  StronglySorted R l -> StronglySorted R (filter p l).
Proof.
  induction 1 as [| x l _ IH Hx]; simpl; [constructor |].
  destruct (p x); [| exact IH].
  constructor; [exact IH |].
  rewrite Forall_forall in *. intros y Hy. apply filter_In in Hy.
  now apply Hx.
Qed.

Lemma string_ltb_of_leb a b :
  String.leb a b = true -> a <> b -> String.ltb a b = true.
Proof.
  unfold String.leb, String.ltb. intros H Hne.
  destruct (String.compare a b) eqn:E; try reflexivity; try discriminate.
  apply String.compare_eq_iff in E. contradiction.
Qed.

Lemma sorted_strictly {V} (l : list (string * V)) :
  NoDup (map fst l) ->
  StronglySorted (fun a b => String.leb (fst a) (fst b) = true) l ->
  StronglySorted (fun a b => String.ltb (fst a) (fst b) = true) l.
Proof.
  intros Hnd. induction 1 as [| x l _ IH Hx]; [constructor |].
  inversion Hnd as [| ? ? Hnin Hnd']; subst.
  constructor; [now apply IH |].
  rewrite Forall_forall in *. intros y Hy.
  apply string_ltb_of_leb; [now apply Hx |].
  intros E. apply Hnin. rewrite E. now apply in_map.
Qed.

Lemma NoDup_map_filter {A B} (f : A -> B) (p : A -> bool) l :
  NoDup (map f l) -> NoDup (map f (filter p l)).
Proof.
  induction l as [| x l IH]; simpl; intros H; [constructor |].
  inversion H as [| ? ? Hnin Hnd]; subst.
  destruct (p x); simpl; [| now apply IH].
  constructor; [| now apply IH].
  intros Hin. apply Hnin. apply in_map_iff in Hin.
  destruct Hin as (y & <- & Hy). apply filter_In in Hy.
  now apply in_map.
Qed.

Lemma filter_perm {A} (p : A -> bool) l l' :
  Permutation l l' -> Permutation (filter p l) (filter p l').
Proof.
  induction 1 as [| x l l' _ IH | x y l | l l' l'' _ IH1 _ IH2]; simpl.
  - constructor.
  - destruct (p x); [now constructor | exact IH].
  - destruct (p x), (p y); try reflexivity. apply perm_swap.
  - etransitivity; eassumption.
Qed.

(** What [magnitudes] selects: the items with a key starting with
    ['magnitude'], each once, in strictly ascending order of the keys,
    whatever the insertion order of the dict. *)
Lemma magnitudes_selected (fmap : dict) :
  NoDup (map fst fmap) ->
  let starts kv := prefix "magnitude" (fst kv) in
  let selected := filter starts (sort String.leb fst fmap) in
  magnitudes fmap = map snd selected /\
  Permutation selected (filter starts fmap) /\
  StronglySorted (fun a b => String.ltb (fst a) (fst b) = true) selected /\
  (forall fmap', Permutation fmap fmap' -> magnitudes fmap' = map snd selected).
Proof.
  intros Hnd starts selected. split; [reflexivity |].
  pose proof (sort_perm String.leb fst fmap) as Hp.
  split; [| split].
  - symmetry. now apply filter_perm.
  - apply sorted_strictly.
    + apply NoDup_map_filter.
      eapply Permutation_NoDup; [apply Permutation_map; exact Hp | exact Hnd].
    + apply StronglySorted_filter.
      apply sort_sorted; [apply String.leb_total | apply string_leb_trans].
  - intros fmap' Hperm. unfold magnitudes. subst selected. f_equal. f_equal.
    symmetry.
    apply sort_permutation_invariant;
      [apply String.leb_total | apply string_leb_trans
      | apply String.leb_antisym | exact Hnd | exact Hperm].
Qed.

(** C7.  When the fieldmap chosen after the sort is a ['phasediff'] one,
    the magnitude list set on the estimator holds exactly the values of
    the keys that start with ['magnitude'], in ascending order of the
    keys; it does not depend on the order in which the dict holds its
    items, and for [{magnitude2: B, magnitude1: A}] it is [[A; B]]. *)
Theorem phasediff_magnitudes_sorted_by_key :
  forall bold_meta template omp_nthreads debug fmap_bspline fmap_demean
         fmaps fmap p,
    Forall (fun f => known_type f = true) fmaps ->
    first (sort Nat.leb rank fmaps) = Ok fmap ->
    type_is "phasediff" fmap = true ->
    lookup fmap "phasediff" = Some p ->
    NoDup (map fst fmap) ->
    exists wf selected,
      snd (init_sdc_wf bold_meta template omp_nthreads debug fmap_bspline
             fmap_demean fmaps) = Ok wf /\
      In (PhdiffEstimator omp_nthreads
            [("phasediff", One p); ("magnitude", Many (map snd selected))])
         (subworkflows wf) /\
      Permutation selected
        (filter (fun kv => prefix "magnitude" (fst kv)) fmap) /\
      StronglySorted (fun a b => String.ltb (fst a) (fst b) = true) selected /\
      (forall fmap', Permutation fmap fmap' ->
                     magnitudes fmap' = map snd selected) /\
      (forall ty pd A B : value,
          magnitudes [("type", ty); ("phasediff", pd);
                      ("magnitude2", B); ("magnitude1", A)] = [A; B]).
Proof.
  intros bold_meta template omp_nthreads debug fmap_bspline fmap_demean
    fmaps fmap p Hk Hfirst Hty Hp Hnd.
  assert (fmaps <> []) as Hne by (intros ->; discriminate).
  rewrite init_known by assumption. cbn [snd].
  pose proof (sort_known Hk) as Hks.
  destruct (sort Nat.leb rank fmaps) as [| best rest] eqn:E; [discriminate |].
  injection Hfirst as ->.
  destruct (type_is_inv _ _ Hty) as [Ht Et].
  destruct (@final_in _ (fmap :: rest)) as (last_fmap & Hf & Hinl);
    [discriminate |].
  assert (has_tag last_fmap = true) as Htl.
  { apply known_has_tag. rewrite Forall_forall in Hks. now apply Hks. }
  erewrite compose_phasediff by eassumption.
  destruct (@magnitudes_selected fmap Hnd) as (Hm & Hperm & Hsorted & Hinv).
  eexists. exists (filter (fun kv => prefix "magnitude" (fst kv))
                     (sort String.leb fst fmap)).
  split; [reflexivity |]. rewrite <- Hm.
  split.
  { destruct (tag last_fmap =? "syn"); cbn -[magnitudes];
      right; left; reflexivity. }
  repeat split; try assumption.
Qed.

Lemma phasediff_magnitudes_sorted_by_key_witness :
  let fmaps := [syn_fmap; phasediff_fmap] in
  Forall (fun f => known_type f = true) fmaps /\
  first (sort Nat.leb rank fmaps) = Ok phasediff_fmap /\
  type_is "phasediff" phasediff_fmap = true /\
  NoDup (map fst phasediff_fmap) /\
  exists wf,
    snd (sample_call fmaps) = Ok wf /\
    In (PhdiffEstimator 1
          [("phasediff", One (Str "sub-03_phasediff.nii.gz"));
           ("magnitude",
            Many [Str "sub-03_magnitude1.nii.gz";
                  Str "sub-03_magnitude2.nii.gz"])])
       (subworkflows wf).
Proof.
  intros fmaps.
  assert (Forall (fun f => known_type f = true) fmaps) as Hk
    by (repeat constructor).
  assert (first (sort Nat.leb rank fmaps) = Ok phasediff_fmap) as Hfirst
    by reflexivity.
  assert (type_is "phasediff" phasediff_fmap = true) as Hty by reflexivity.
  assert (NoDup (map fst phasediff_fmap)) as Hnd.
  { repeat constructor; simpl; intros H;
      repeat (destruct H as [H | H]; [discriminate H |]); exact H. }
  repeat (split; [assumption |]).
  destruct (@phasediff_magnitudes_sorted_by_key sample_meta
              (Some "MNI152NLin2009cAsym") 1 false false true fmaps
              phasediff_fmap (Str "sub-03_phasediff.nii.gz")
              Hk Hfirst Hty eq_refl Hnd)
    as (wf & selected & Hwf & Hin & _ & _ & Hinv & _).
  exists wf. split; [exact Hwf |].
  rewrite <- (Hinv phasediff_fmap (Permutation_refl _)) in Hin. exact Hin.
Defined.

(** C6, as the code has it.  A ['phasediff'] fieldmap without any magnitude
    key is not refused: the estimator is given an empty magnitude list and
    the workflow is returned. *)
Lemma missing_magnitudes_not_an_error :
  tag bare_phasediff_fmap = "phasediff" /\
  filter (fun kv => prefix "magnitude" (fst kv)) bare_phasediff_fmap = [] /\
  exists wf,
    sample_call [bare_phasediff_fmap] = ([bare_phasediff_fmap], Ok wf) /\
    In (PhdiffEstimator 1
          [("phasediff", One (Str "sub-03_phasediff.nii.gz"));
           ("magnitude", Many [])])
       (subworkflows wf).
Proof.
  split; [reflexivity |]. split; [reflexivity |].
  eexists. split; [vm_compute; reflexivity |].
  right. left. reflexivity.
Qed.

(** C6, amended.  The chosen fieldmap is read by plain subscripts: a key
    that its block needs and that is absent makes the call raise
    [KeyError] on that key and return no workflow.  The keys are
    ['fieldmap'] then ['magnitude'] for a ['fieldmap'] entry, ['phasediff']
    for a ['phasediff'] entry, and ['epi'], ['metadata'] and, inside the
    metadata, ['PhaseEncodingDirection'] for an ['epi'] entry.  A
    ['phasediff'] entry that has its ['phasediff'] image is composed
    whatever magnitude keys it has. *)
Theorem missing_input_raises_KeyError :
  forall bold_meta template omp_nthreads debug fmap_bspline fmap_demean
         fmaps fmap,
    Forall (fun f => known_type f = true) fmaps ->
    first (sort Nat.leb rank fmaps) = Ok fmap ->
    let outcome :=
      snd (init_sdc_wf bold_meta template omp_nthreads debug fmap_bspline
             fmap_demean fmaps) in
    (type_is "fieldmap" fmap = true -> lookup fmap "fieldmap" = None ->
     outcome = Raise (KeyError "fieldmap")) /\
    (type_is "fieldmap" fmap = true -> contains fmap "fieldmap" = true ->
     lookup fmap "magnitude" = None ->
     outcome = Raise (KeyError "magnitude")) /\
    (type_is "phasediff" fmap = true -> lookup fmap "phasediff" = None ->
     outcome = Raise (KeyError "phasediff")) /\
    (type_is "phasediff" fmap = true -> contains fmap "phasediff" = true ->
     exists wf, outcome = Ok wf) /\
    (type_is "epi" fmap = true -> lookup fmap "epi" = None ->
     outcome = Raise (KeyError "epi")) /\
    (type_is "epi" fmap = true -> contains fmap "epi" = true ->
     lookup fmap "metadata" = None ->
     outcome = Raise (KeyError "metadata")) /\
    (type_is "epi" fmap = true -> contains fmap "epi" = true ->
     forall meta, lookup fmap "metadata" = Some (Dict meta) ->
                  lookup meta "PhaseEncodingDirection" = None ->
                  outcome = Raise (KeyError "PhaseEncodingDirection")).
Proof.
  intros bold_meta template omp_nthreads debug fmap_bspline fmap_demean
    fmaps fmap Hk Hfirst outcome.
  assert (fmaps <> []) as Hne by (intros ->; discriminate).
  subst outcome. rewrite init_known by assumption. cbn [snd].
  pose proof (sort_known Hk) as Hks.
  destruct (sort Nat.leb rank fmaps) as [| best rest] eqn:E; [discriminate |].
  injection Hfirst as ->.
  inversion Hks as [| ? ? Hkb _]; subst.
  pose proof (known_has_tag _ Hkb) as Ht.
  destruct (@final_in _ (fmap :: rest)) as (last_fmap & Hf & Hinl);
    [discriminate |].
  assert (has_tag last_fmap = true) as Htl.
  { apply known_has_tag. rewrite Forall_forall in Hks. now apply Hks. }
  unfold compose. cbn [first rbind].
  rewrite pepolar_path_tag by assumption.
  rewrite !(type_is_tag _ _ Ht).
  repeat split.
  - intros Ety Hno. apply String.eqb_eq in Ety. rewrite Ety.
    cbn [String.eqb Ascii.eqb Bool.eqb rbind].
    rewrite fieldmap_path_tag by assumption. rewrite Ety.
    cbn [String.eqb Ascii.eqb Bool.eqb rbind].
    unfold getitem at 1. now rewrite Hno.
  - intros Ety Hhas Hno. apply String.eqb_eq in Ety. rewrite Ety.
    cbn [String.eqb Ascii.eqb Bool.eqb rbind].
    rewrite fieldmap_path_tag by assumption. rewrite Ety.
    cbn [String.eqb Ascii.eqb Bool.eqb rbind].
    unfold getitem, contains in *.
    destruct (lookup fmap "fieldmap"); [| discriminate].
    now rewrite Hno.
  - intros Ety Hno. apply String.eqb_eq in Ety. rewrite Ety.
    cbn [String.eqb Ascii.eqb Bool.eqb rbind].
    rewrite fieldmap_path_tag by assumption. rewrite Ety.
    cbn [String.eqb Ascii.eqb Bool.eqb rbind].
    unfold getitem at 1. now rewrite Hno.
  - intros Ety Hhas. apply String.eqb_eq in Ety.
    unfold contains in Hhas.
    destruct (lookup fmap "phasediff") as [p |] eqn:Hp; [| discriminate].
    pose proof (@compose_phasediff bold_meta template omp_nthreads debug
                  fmap_bspline fmap_demean fmap rest p last_fmap
                  (new_workflow "sdc_wf") Ht Ety Hp Hf Htl) as Hc.
    unfold compose in Hc. cbn [first rbind] in Hc.
    rewrite pepolar_path_tag in Hc by assumption.
    eexists. exact Hc.
  - intros Ety Hno. apply String.eqb_eq in Ety. rewrite Ety.
    cbn [String.eqb Ascii.eqb Bool.eqb rbind epi_polarities].
    rewrite (getitem_type _ Ht), Ety.
    cbn [String.eqb Ascii.eqb Bool.eqb rbind eq_str].
    unfold getitem at 1. now rewrite Hno.
  - intros Ety Hhas Hno. apply String.eqb_eq in Ety. rewrite Ety.
    cbn [String.eqb Ascii.eqb Bool.eqb rbind epi_polarities].
    rewrite (getitem_type _ Ht), Ety.
    cbn [String.eqb Ascii.eqb Bool.eqb rbind eq_str].
    unfold getitem, contains in *.
    destruct (lookup fmap "epi"); [| discriminate].
    now rewrite Hno.
  - intros Ety Hhas meta Hmeta Hno. apply String.eqb_eq in Ety. rewrite Ety.
    cbn [String.eqb Ascii.eqb Bool.eqb rbind epi_polarities].
    rewrite (getitem_type _ Ht), Ety.
    cbn [String.eqb Ascii.eqb Bool.eqb rbind eq_str].
    unfold subscript, getitem, contains in *.
    destruct (lookup fmap "epi"); [| discriminate].
    rewrite Hmeta. cbn [rbind]. now rewrite Hno.
Qed.

Lemma missing_input_raises_KeyError_witness :
  Forall (fun f => known_type f = true) [syn_fmap; bare_fieldmap_fmap] /\
  first (sort Nat.leb rank [syn_fmap; bare_fieldmap_fmap]) =
  Ok bare_fieldmap_fmap /\
  snd (sample_call [syn_fmap; bare_fieldmap_fmap]) =
  Raise (KeyError "fieldmap").
Proof.
  assert (Forall (fun f => known_type f = true)
            [syn_fmap; bare_fieldmap_fmap]) as Hk by (repeat constructor).
  assert (first (sort Nat.leb rank [syn_fmap; bare_fieldmap_fmap]) =
          Ok bare_fieldmap_fmap) as Hfirst by reflexivity.
  split; [exact Hk |]. split; [exact Hfirst |].
  exact (proj1 (@missing_input_raises_KeyError sample_meta
                  (Some "MNI152NLin2009cAsym") 1 false false true
                  [syn_fmap; bare_fieldmap_fmap] bare_fieldmap_fmap
                  Hk Hfirst) eq_refl eq_refl).
Defined.

(** ** What a call does to the list it is given *)

Lemma mapM_ok_each {A B} (f : A -> result B) l ys :
  mapM f l = Ok ys -> Forall (fun x => exists y, f x = Ok y) l.
Proof.
  revert ys. induction l as [| x l IH]; simpl; intros ys H; [constructor |].
  destruct (f x) as [y |] eqn:E; [| discriminate]. cbn [rbind] in H.
  destruct (mapM f l) as [zs |]; [| discriminate].
  constructor; eauto.
Qed.

Lemma priority_ok_known fmap r :
  priority fmap = Ok r -> known_type fmap = true.
Proof.
  unfold priority, getitem, known_type, tag_of.
  destruct (lookup fmap "type") as [[t | d] |]; cbn [rbind hashable];
    try discriminate.
  unfold known. destruct (lookup FMAP_PRIORITY t); [reflexivity | discriminate].
Qed.

(** Either the call leaves the list alone, or every entry is of a known
    type and the list is sorted by rank. *)
Lemma init_state bold_meta template omp_nthreads debug fmap_bspline
    fmap_demean fmaps :
  let after :=
    fst (init_sdc_wf bold_meta template omp_nthreads debug fmap_bspline
           fmap_demean fmaps) in
  after = fmaps \/
  (Forall (fun f => known_type f = true) fmaps /\
   after = sort Nat.leb rank fmaps).
Proof.
  unfold init_sdc_wf, bind, deref, lift, list_sort, ret.
  destruct (mapM (fun fmap => getitem fmap "type") fmaps) as [types |];
    [| now left].
  destruct (mapM hashable types) as [tags |]; [| now left].
  destruct (negb (supported tags)); [now left |].
  destruct (mapM priority fmaps) as [keys |] eqn:Ep; [| now left].
  right.
  assert (Forall (fun f => known_type f = true) fmaps) as Hk.
  { eapply Forall_impl; [| exact (mapM_ok_each _ _ Ep)].
    intros f [r Hr]. exact (priority_ok_known _ Hr). }
  split; [exact Hk |].
  rewrite (mapM_map priority rank) in Ep.
  - injection Ep as <-. cbn [fst]. apply sort_decorated.
  - eapply Forall_impl; [| exact Hk]. apply priority_known.
Qed.

(** C8, as the code has it.  [fmaps.sort] works on the list object of the
    caller: after the call the list is in priority order, not in the order
    the caller gave it. *)
Lemma sort_reorders_caller_list :
  fst (sample_call [syn_fmap; phasediff_fmap]) = [phasediff_fmap; syn_fmap] /\
  fst (sample_call [syn_fmap; phasediff_fmap]) <> [syn_fmap; phasediff_fmap].
Proof.
  split; [reflexivity |]. vm_compute. discriminate.
Qed.

(** C8, amended.  A call keeps the entries of the list it is given and
    changes at most their order: afterwards the list is a permutation of
    the input, namely the input itself or, when all entries are of known
    types, the input stably sorted by priority rank; a list already in
    ascending rank order is therefore left as it was. *)
Theorem caller_list_permuted_by_sort_only :
  forall bold_meta template omp_nthreads debug fmap_bspline fmap_demean fmaps,
    let after :=
      fst (init_sdc_wf bold_meta template omp_nthreads debug fmap_bspline
             fmap_demean fmaps) in
    Permutation fmaps after /\
    (after = fmaps \/
     (Forall (fun f => known_type f = true) fmaps /\
      after = sort Nat.leb rank fmaps)) /\
    (StronglySorted (fun a b => rank a <= rank b) fmaps -> after = fmaps).
Proof.
  intros bold_meta template omp_nthreads debug fmap_bspline fmap_demean fmaps
    after.
  pose proof (init_state bold_meta template omp_nthreads debug fmap_bspline
                fmap_demean fmaps) as H.
  fold after in H. cbv zeta in H.
  split; [| split].
  - destruct H as [-> | [_ ->]]; [reflexivity | apply sort_perm].
  - exact H.
  - intros Hs. destruct H as [-> | [_ ->]]; [reflexivity |].
    apply sort_fixed. eapply StronglySorted_weaken; [| exact Hs].
    intros a b. apply Nat.leb_le.
Qed.

Lemma caller_list_permuted_by_sort_only_witness :
  StronglySorted (fun a b => rank a <= rank b) [epi_fmap; syn_fmap] /\
  fst (sample_call [epi_fmap; syn_fmap]) = [epi_fmap; syn_fmap].
Proof.
  assert (StronglySorted (fun a b => rank a <= rank b) [epi_fmap; syn_fmap])
    as Hs.
  { repeat constructor. }
  split; [exact Hs |].
  exact (proj2 (proj2 (@caller_list_permuted_by_sort_only sample_meta
                         (Some "MNI152NLin2009cAsym") 1 false false true
                         [epi_fmap; syn_fmap])) Hs).
Defined.

(** ** The shape of every returned workflow *)

Lemma init_outcome bold_meta template omp_nthreads debug fmap_bspline
    fmap_demean fmaps wf :
  snd (init_sdc_wf bold_meta template omp_nthreads debug fmap_bspline
         fmap_demean fmaps) = Ok wf ->
  wf = bypass (new_workflow "sdc_bypass_wf") \/
  exists sorted,
    compose bold_meta template omp_nthreads debug fmap_bspline fmap_demean
      sorted (new_workflow "sdc_wf") = Ok wf.
Proof.
  unfold init_sdc_wf, bind, deref, lift, list_sort, ret.
  destruct (mapM (fun fmap => getitem fmap "type") fmaps) as [types |];
    [| discriminate].
  destruct (mapM hashable types) as [tags |]; [| discriminate].
  destruct (negb (supported tags)).
  - cbn [snd]. intros H. injection H as <-. now left.
  - destruct (mapM priority fmaps) as [keys |]; [| discriminate].
    cbn [snd]. intros H. right. eauto.
Qed.

Lemma connect_respects wf l :
  Forall respects_interface (edges wf) ->
  Forall respects_interface (edges (connect (new_workflow "") l)) ->
  Forall respects_interface (edges (connect wf l)).
Proof.
  intros H1 H2. unfold connect in *. cbn [edges new_workflow app] in *.
  apply Forall_app. now split.
Qed.

Lemma respects_in_sub p b q :
  is_interface b = false ->
  In p ["name_source"; "bold_ref"; "bold_ref_brain"; "bold_mask"; "t1_brain";
        "t1_2_mni_reverse_transform"] ->
  respects_interface (Edge inputnode p b q).
Proof.
  intros Hb Hp. split; cbn [src dst src_port dst_port]; intros H.
  - now split.
  - congruence.
Qed.

Lemma respects_sub_out a p q :
  is_interface a = false ->
  In q ["bold_ref"; "bold_mask"; "bold_ref_brain"; "out_warp";
        "syn_bold_ref"] ->
  respects_interface (Edge a p outputnode q).
Proof.
  intros Ha Hq. split; cbn [src dst src_port dst_port]; intros H.
  - congruence.
  - now split.
Qed.

Lemma respects_sub_sub a p b q :
  is_interface a = false -> is_interface b = false ->
  respects_interface (Edge a p b q).
Proof.
  intros Ha Hb. split; cbn [src dst src_port dst_port]; congruence.
Qed.

Lemma respects_in_out p q :
  In p ["name_source"; "bold_ref"; "bold_ref_brain"; "bold_mask"; "t1_brain";
        "t1_2_mni_reverse_transform"] ->
  In q ["bold_ref"; "bold_mask"; "bold_ref_brain"; "out_warp";
        "syn_bold_ref"] ->
  respects_interface (Edge inputnode p outputnode q).
Proof.
  intros Hp Hq. split; cbn [src dst src_port dst_port]; intros _; now split.
Qed.

Ltac in_fields := cbn [In]; repeat first [left; reflexivity | right].

Ltac edge_ok :=
  first [apply respects_in_out | apply respects_in_sub
        | apply respects_sub_out | apply respects_sub_sub];
  first [reflexivity | assumption | in_fields].

Ltac interface_edges :=
  cbn [connect new_workflow edges flat_map map app];
  repeat (constructor; [edge_ok |]); constructor.

Section Shape.
Variables (bold_meta : dict) (template : option string) (omp_nthreads : nat)
          (debug fmap_bspline fmap_demean : bool).

(** What the blocks keep true of the local variables: the edges made so
    far respect the outer interface, and [sdc_unwarp_wf], once assigned,
    is a sub-workflow. *)
Local Abbreviation sound fr :=
  (Forall respects_interface (edges (workflow fr)) /\
   forall u, sdc_unwarp_wf fr = Some u -> is_interface u = false).

Lemma pepolar_path_sound fmaps fmap fr fr' :
  pepolar_path bold_meta omp_nthreads fmaps fmap fr = Ok fr' ->
  sound fr -> sound fr'.
Proof.
  unfold pepolar_path. intros H Hs.
  destruct (getitem fmap "type") as [ty |]; [| discriminate].
  cbn [rbind] in H. destruct (eq_str ty "epi").
  - destruct (epi_polarities fmaps) as [eps |]; [| discriminate].
    injection H as <-. cbn. split; [apply Hs |].
    intros u Hu. injection Hu as <-. reflexivity.
  - injection H as <-. exact Hs.
Qed.

Lemma fieldmap_path_sound fmap fr fr' :
  fieldmap_path omp_nthreads debug fmap_bspline fmap_demean fmap fr = Ok fr' ->
  sound fr -> sound fr'.
Proof.
  unfold fieldmap_path. intros H Hs.
  destruct (getitem fmap "type") as [ty |]; [| discriminate].
  cbn [rbind] in H.
  destruct (eq_str ty "fieldmap" || eq_str ty "phasediff");
    [| injection H as <-; exact Hs].
  assert (forall est,
             is_interface est = false ->
             Ok {| workflow :=
                     connect
                       (set_sdc_method (workflow fr)
                          ("FMB (" ++ percent_s ty ++ "-based)")%string)
                       [(inputnode,
                         init_sdc_unwarp_wf omp_nthreads fmap_demean debug
                           "sdc_unwarp_wf",
                         [("name_source", "inputnode.name_source")]);
                        (est,
                         init_sdc_unwarp_wf omp_nthreads fmap_demean debug
                           "sdc_unwarp_wf",
                         [("outputnode.fmap", "inputnode.fmap");
                          ("outputnode.fmap_ref", "inputnode.fmap_ref");
                          ("outputnode.fmap_mask", "inputnode.fmap_mask")])];
                   sdc_unwarp_wf :=
                     Some (init_sdc_unwarp_wf omp_nthreads fmap_demean
                             debug "sdc_unwarp_wf") |} = Ok fr' ->
             sound fr') as Hend.
  { intros est Hest Hfr. injection Hfr as <-. split.
    - apply connect_respects; [apply Hs | interface_edges].
    - intros u Hu. injection Hu as <-. reflexivity. }
  destruct (eq_str ty "fieldmap").
  - destruct (getitem fmap "fieldmap") as [fm |]; [| discriminate].
    cbn [rbind] in H.
    destruct (getitem fmap "magnitude") as [mg |]; [| discriminate].
    cbn [rbind] in H. destruct (eq_str ty "phasediff").
    + destruct (getitem fmap "phasediff") as [p |]; [| discriminate].
      cbn [rbind] in H. refine (Hend _ _ H). reflexivity.
    + cbn [rbind] in H. refine (Hend _ _ H). reflexivity.
  - cbn [rbind] in H. destruct (eq_str ty "phasediff").
    + destruct (getitem fmap "phasediff") as [p |]; [| discriminate].
      cbn [rbind] in H. refine (Hend _ _ H). reflexivity.
    + cbn [rbind] in H. discriminate.
Qed.

Lemma syn_path_sound fmaps fr fr' :
  syn_path bold_meta template omp_nthreads fmaps fr = Ok fr' ->
  sound fr -> sound fr'.
Proof.
  unfold syn_path. intros H Hs.
  destruct (final fmaps) as [last_fmap |]; [| discriminate].
  cbn [rbind] in H.
  destruct (getitem last_fmap "type") as [ty |]; [| discriminate].
  cbn [rbind] in H.
  destruct (eq_str ty "syn"); [| injection H as <-; exact Hs].
  destruct (Nat.eqb (List.length fmaps) 1); injection H as <-.
  - split.
    + cbn [workflow set_sdc_method edges].
      apply connect_respects; [apply Hs | interface_edges].
    + intros u Hu. injection Hu as <-. reflexivity.
  - split; [| apply Hs]. cbn [workflow].
    apply connect_respects; [| interface_edges].
    apply connect_respects; [apply Hs | interface_edges].
Qed.

Lemma compose_sound fmaps wf :
  compose bold_meta template omp_nthreads debug fmap_bspline fmap_demean
    fmaps (new_workflow "sdc_wf") = Ok wf ->
  Forall respects_interface (edges wf) /\
  exists unwarp prior,
    is_interface unwarp = false /\
    edges wf = prior ++
      [Edge unwarp "outputnode.out_warp" outputnode "out_warp";
       Edge unwarp "outputnode.out_reference" outputnode "bold_ref";
       Edge unwarp "outputnode.out_reference_brain" outputnode
         "bold_ref_brain";
       Edge unwarp "outputnode.out_mask" outputnode "bold_mask"].
Proof.
  unfold compose. intros H.
  apply rbind_ok in H. destruct H as (fmap & _ & H).
  apply rbind_ok in H. destruct H as (fr1 & H1 & H).
  apply rbind_ok in H. destruct H as (fr2 & H2 & H).
  apply rbind_ok in H. destruct H as (fr3 & H3 & H).
  assert (sound fr3) as [Hedges Hu].
  { eapply syn_path_sound; [exact H3 |].
    eapply fieldmap_path_sound; [exact H2 |].
    eapply pepolar_path_sound; [exact H1 |].
    split; [constructor | discriminate]. }
  unfold wire_outputs in H.
  destruct (sdc_unwarp_wf fr3) as [unwarp |]; [| discriminate].
  injection H as <-. specialize (Hu unwarp eq_refl). split.
  - apply connect_respects; [exact Hedges | interface_edges].
  - exists unwarp, (edges (workflow fr3)). split; [exact Hu | reflexivity].
Qed.
End Shape.

Lemma interface_nodes wf n :
  Forall respects_interface (edges wf) ->
  In n (nodes wf) -> is_interface n = true ->
  n = inputnode \/ n = outputnode.
Proof.
  unfold nodes. intros H Hin Hn. apply in_flat_map in Hin.
  destruct Hin as (e & He & Hin). rewrite Forall_forall in H.
  destruct (H e He) as [Hsrc Hdst].
  destruct Hin as [<- | [<- | []]]; [left | right]; tauto.
Qed.

Lemma is_named_interface nm n : is_named nm n = true -> is_interface n = true.
Proof. now destruct n. Qed.

Lemma interface_fixed wf :
  Forall respects_interface (edges wf) ->
  (exists e, In e (edges wf) /\ dst e = outputnode) ->
  interface wf "outputnode" =
  Some ["bold_ref"; "bold_mask"; "bold_ref_brain"; "out_warp";
        "syn_bold_ref"] /\
  (interface wf "inputnode" =
   Some ["name_source"; "bold_ref"; "bold_ref_brain"; "bold_mask";
         "t1_brain"; "t1_2_mni_reverse_transform"] \/
   interface wf "inputnode" = None).
Proof.
  intros H (e & He & Hd). unfold interface. split.
  - destruct (find (is_named "outputnode") (nodes wf)) as [n |] eqn:E.
    + destruct (find_some _ _ E) as [Hin Hn].
      destruct (@interface_nodes wf n H Hin (@is_named_interface _ n Hn))
        as [-> | ->]; [discriminate | reflexivity].
    + assert (In outputnode (nodes wf)) as Hin.
      { unfold nodes. apply in_flat_map. exists e. rewrite Hd. simpl. auto. }
      apply (find_none _ _ E) in Hin. discriminate.
  - destruct (find (is_named "inputnode") (nodes wf)) as [n |] eqn:E;
      [| now right].
    destruct (find_some _ _ E) as [Hin Hn].
    destruct (@interface_nodes wf n H Hin (@is_named_interface _ n Hn))
      as [-> | ->]; [now left | discriminate].
Qed.




(** ** When the call returns *)

Lemma forallb_perm {A} (p : A -> bool) l l' :
  Permutation l l' -> forallb p l = true -> forallb p l' = true.
Proof.
  intros Hp H. rewrite forallb_forall in *. intros x Hx. apply H.
  eapply Permutation_in; [symmetry; exact Hp | exact Hx].
Qed.

Lemma epi_polarities_ok (l : list dict) :
  Forall (fun f => has_tag f = true) l ->
  forallb epi_complete (filter (type_is "epi") l) = true ->
  exists eps, epi_polarities l = Ok eps.
Proof.
  induction 1 as [| f l Hf _ IH]; cbn [epi_polarities filter]; intros H;
    [eauto |].
  rewrite (getitem_type _ Hf). cbn [rbind eq_str].
  rewrite (type_is_tag _ _ Hf) in H.
  destruct (tag f =? "epi"); [| auto].
  cbn [forallb] in H. apply andb_prop in H. destruct H as [Hc H].
  destruct (IH H) as [eps ->].
  unfold epi_complete, contains in Hc. unfold getitem, subscript.
  destruct (lookup f "epi"); [| discriminate].
  destruct (lookup f "metadata") as [[s | meta] |]; try discriminate.
  cbn [rbind andb] in *. unfold getitem.
  destruct (lookup meta "PhaseEncodingDirection"); [| discriminate].
  cbn [rbind]. eauto.
Qed.

(** The FIELDMAP-less block always goes through, and leaves
    [sdc_unwarp_wf] assigned if it was, or if the list has one entry and
    that is a ['syn']. *)
Lemma syn_path_ok bold_meta template omp_nthreads fmaps last_fmap fr :
  final fmaps = Ok last_fmap -> has_tag last_fmap = true ->
  exists fr',
    syn_path bold_meta template omp_nthreads fmaps fr = Ok fr' /\
    (sdc_unwarp_wf fr <> None -> sdc_unwarp_wf fr' <> None) /\
    (tag last_fmap = "syn" -> List.length fmaps = 1 ->
     sdc_unwarp_wf fr' <> None) /\
    (tag last_fmap = "syn" -> List.length fmaps <> 1 ->
     sdc_unwarp_wf fr' = sdc_unwarp_wf fr).
Proof.
  intros Hf Ht. erewrite syn_path_tag by eassumption. cbv zeta.
  destruct (String.eqb_spec (tag last_fmap) "syn") as [E | E].
  - destruct (Nat.eqb_spec (List.length fmaps) 1) as [El | El]; eexists;
      (split; [reflexivity |]); cbn [sdc_unwarp_wf];
      repeat split; intros; try congruence; try discriminate.
  - eexists. split; [reflexivity |]. repeat split; intros; congruence.
Qed.

Lemma wire_outputs_ok fr :
  sdc_unwarp_wf fr <> None -> exists wf, wire_outputs fr = Ok wf.
Proof.
  unfold wire_outputs. destruct (sdc_unwarp_wf fr); [eauto | congruence].
Qed.

(** C10, as the code has it.  A list whose only entry is of a known type
    other than ['syn'] can still make the call raise: a ['fieldmap'] entry
    without its ['fieldmap'] key stops it with [KeyError]. *)
Lemma known_type_does_not_ensure_return :
  existsb (fun f => known_type f && negb (type_is "syn" f))
    [bare_fieldmap_fmap] = true /\
  snd (sample_call [bare_fieldmap_fmap]) = Raise (KeyError "fieldmap") /\
  forall wf, snd (sample_call [bare_fieldmap_fmap]) <> Ok wf.
Proof.
  split; [reflexivity |]. split; [reflexivity |]. discriminate.
Qed.

(** C10, amended.  On fieldmaps of known types the call returns a workflow
    when some entry is not a ['syn'] or the list has a single entry,
    provided the chosen fieldmap carries the keys its block reads; on two
    or more fieldmaps that are all of type ['syn'] no block assigns
    [sdc_unwarp_wf] and the last [connect] raises [NameError]. *)
Theorem returns_unless_several_syn_only :
  forall bold_meta template omp_nthreads debug fmap_bspline fmap_demean fmaps,
    let outcome :=
      snd (init_sdc_wf bold_meta template omp_nthreads debug fmap_bspline
             fmap_demean fmaps) in
    (Forall (fun f => known_type f = true) fmaps ->
     existsb (fun f => negb (type_is "syn" f)) fmaps = true \/
     List.length fmaps = 1 ->
     (forall fmap, first (sort Nat.leb rank fmaps) = Ok fmap ->
                   inputs_present fmaps fmap = true) ->
     exists wf, outcome = Ok wf) /\
    (forallb (type_is "syn") fmaps = true -> 2 <= List.length fmaps ->
     outcome = Raise (NameError "sdc_unwarp_wf")).
Proof.
  intros bold_meta template omp_nthreads debug fmap_bspline fmap_demean fmaps
    outcome.
  pose proof (sort_perm Nat.leb rank fmaps) as Hperm.
  split.
  - intros Hk Hsome Hin.
    assert (fmaps <> []) as Hne.
    { intros ->. destruct Hsome; discriminate. }
    subst outcome. rewrite init_known by assumption. cbn [snd].
    pose proof (sort_known Hk) as Hks.
    destruct (sort Nat.leb rank fmaps) as [| best rest] eqn:E.
    { apply sort_nil in E. contradiction. }
    specialize (Hin best eq_refl).
    destruct (sort_head rank fmaps E) as (l1 & l2 & Hl & H1 & H2).
    inversion Hks as [| ? ? Hkb _]; subst.
    pose proof (known_has_tag _ Hkb) as Ht.
    destruct (@final_in _ (best :: rest)) as (last_fmap & Hf & Hinl);
      [discriminate |].
    assert (has_tag last_fmap = true) as Htl.
    { apply known_has_tag. rewrite Forall_forall in Hks. now apply Hks. }
    unfold inputs_present in Hin. rewrite !(type_is_tag _ _ Ht) in Hin.
    unfold compose. cbn [first rbind].
    rewrite pepolar_path_tag by assumption.
    destruct (rank_of_known _ Hkb)
      as [[Et _] | [[Et _] | [[Et _] | [Et Hr]]]];
      rewrite Et in *; cbn [String.eqb Ascii.eqb Bool.eqb rbind] in Hin |- *;
      [destruct (@epi_polarities_ok (best :: rest)) as [eps ->];
       [eapply Forall_impl; [| exact Hks]; apply known_has_tag
       | eapply forallb_perm; [apply filter_perm; exact Hperm | exact Hin]
       | cbn [rbind]]
      | | |];
      rewrite fieldmap_path_tag by assumption; cbv zeta;
      rewrite Et; cbn [String.eqb Ascii.eqb Bool.eqb rbind].
    + edestruct syn_path_ok as (fr' & -> & Hkeep & _); [eassumption .. |].
      cbn [rbind]. apply wire_outputs_ok. apply Hkeep. discriminate.
    + apply andb_prop in Hin. destruct Hin as [Hc1 Hc2].
      unfold contains in Hc1, Hc2. unfold getitem.
      destruct (lookup best "fieldmap"); [| discriminate].
      destruct (lookup best "magnitude"); [| discriminate].
      cbn [rbind].
      edestruct syn_path_ok as (fr' & -> & Hkeep & _); [eassumption .. |].
      cbn [rbind]. apply wire_outputs_ok. apply Hkeep. discriminate.
    + unfold contains in Hin. unfold getitem.
      destruct (lookup best "phasediff"); [| discriminate].
      cbn [rbind].
      edestruct syn_path_ok as (fr' & -> & Hkeep & _); [eassumption .. |].
      cbn [rbind]. apply wire_outputs_ok. apply Hkeep. discriminate.
    + assert (List.length (best :: rest) = 1) as Hlen.
      { rewrite <- (Permutation_length Hperm).
        destruct Hsome as [Hsome | Hlen]; [| exact Hlen]. exfalso.
        apply existsb_exists in Hsome. destruct Hsome as (f & Hinf & Hnf).
        rewrite Forall_forall in Hk. pose proof (Hk _ Hinf) as Hkf.
        rewrite (type_is_tag _ _ (known_has_tag _ Hkf)) in Hnf.
        assert (rank best <= rank f) as Hle.
        { apply in_app_or in Hinf. rewrite Forall_forall in H1, H2.
          destruct Hinf as [Hi | [<- | Hi]];
            [apply H1 in Hi; lia | lia | auto]. }
        destruct (rank_of_known _ Hkf)
          as [[_ E'] | [[_ E'] | [[_ E'] | [E' _]]]]; try lia.
        rewrite E' in Hnf. discriminate. }
      pose proof (final_single Hlen Hf) as ->.
      edestruct syn_path_ok as (fr' & -> & _ & Hsyn & _); [eassumption .. |].
      cbn [rbind]. apply wire_outputs_ok. now apply Hsyn.
  - intros Hall Hlen.
    assert (Forall (fun f => type_is "syn" f = true) fmaps) as Hsyn.
    { apply Forall_forall. now apply forallb_forall. }
    assert (Forall (fun f => known_type f = true) fmaps) as Hk.
    { eapply Forall_impl; [| exact Hsyn]. intros f.
      now apply type_is_known. }
    assert (fmaps <> []) as Hne by (intros ->; simpl in Hlen; lia).
    subst outcome. rewrite init_known by assumption. cbn [snd].
    pose proof (Permutation_Forall Hperm Hsyn) as Hss.
    rewrite (Permutation_length Hperm) in Hlen.
    destruct (sort Nat.leb rank fmaps) as [| best rest]; [simpl in Hlen; lia |].
    inversion Hss as [| ? ? Hb _]; subst.
    destruct (type_is_inv _ _ Hb) as [Ht Et].
    destruct (@final_in _ (best :: rest)) as (last_fmap & Hf & Hinl);
      [discriminate |].
    rewrite Forall_forall in Hss.
    destruct (type_is_inv _ _ (Hss _ Hinl)) as [Htl Etl].
    unfold compose. cbn [first rbind].
    rewrite pepolar_path_tag by assumption.
    rewrite Et. cbn [String.eqb Ascii.eqb Bool.eqb rbind].
    rewrite fieldmap_path_tag by assumption. cbv zeta.
    rewrite Et. cbn [String.eqb Ascii.eqb Bool.eqb rbind].
    edestruct syn_path_ok as (fr' & -> & _ & _ & Hnone); [eassumption .. |].
    cbn [rbind]. unfold wire_outputs. rewrite (Hnone Etl).
    + reflexivity.
    + simpl in *. lia.
Qed.

Lemma returns_unless_several_syn_only_witness :
  (exists wf, snd (sample_call [syn_fmap; fieldmap_fmap]) = Ok wf) /\
  snd (sample_call [syn_fmap; syn_fmap]) = Raise (NameError "sdc_unwarp_wf").
Proof.
  split.
  - apply (proj1 (@returns_unless_several_syn_only sample_meta
                    (Some "MNI152NLin2009cAsym") 1 false false true
                    [syn_fmap; fieldmap_fmap])).
    + repeat constructor.
    + left. reflexivity.
    + intros fmap H. vm_compute in H. injection H as <-. reflexivity.
  - apply (proj2 (@returns_unless_several_syn_only sample_meta
                    (Some "MNI152NLin2009cAsym") 1 false false true
                    [syn_fmap; syn_fmap])).
    + reflexivity.
    + simpl. lia.
Defined.

(** * Further properties of [init_sdc_wf] *)

(** ** Records that line 145 refuses *)

Lemma mapM_type_raises (fmaps : list dict) :
  existsb (fun f => negb (contains f "type")) fmaps = true ->
  mapM (fun fmap => getitem fmap "type") fmaps = Raise (KeyError "type").
Proof.
  induction fmaps as [| f l IH]; cbn [existsb mapM]; [discriminate |].
  unfold contains, getitem at 1.
  destruct (lookup f "type"); cbn [negb orb rbind]; [| reflexivity].
  intros H. now rewrite (IH H).
Qed.

(** X1.  A record without a ['type'] key anywhere in the list stops the
    call at line 145 with [KeyError] on ['type'], whatever the other
    records are; no workflow is returned and the list is not touched. *)
Theorem missing_type_key_raises :
  forall bold_meta template omp_nthreads debug fmap_bspline fmap_demean fmaps,
    existsb (fun f => negb (contains f "type")) fmaps = true ->
    init_sdc_wf bold_meta template omp_nthreads debug fmap_bspline fmap_demean
      fmaps = (fmaps, Raise (KeyError "type")).
Proof.
  intros bold_meta template omp_nthreads debug fmap_bspline fmap_demean fmaps
    H.
  unfold init_sdc_wf, bind, deref, lift.
  now rewrite (mapM_type_raises _ H).
Qed.

Lemma missing_type_key_raises_witness :
  existsb (fun f => negb (contains f "type"))
    [epi_fmap; untyped_fmap; asl_fmap] = true /\
  sample_call [epi_fmap; untyped_fmap; asl_fmap] =
  ([epi_fmap; untyped_fmap; asl_fmap], Raise (KeyError "type")).
Proof.
  assert (existsb (fun f => negb (contains f "type"))
            [epi_fmap; untyped_fmap; asl_fmap] = true) as H by reflexivity.
  split; [exact H |].
  exact (@missing_type_key_raises sample_meta (Some "MNI152NLin2009cAsym")
           1 false false true [epi_fmap; untyped_fmap; asl_fmap] H).
Defined.

Lemma mapM_type_ok (fmaps : list dict) :
  forallb (fun f => contains f "type") fmaps = true ->
  exists types,
    mapM (fun fmap => getitem fmap "type") fmaps = Ok types /\
    Forall2 (fun f ty => lookup f "type" = Some ty) fmaps types.
Proof.
  induction fmaps as [| f l IH]; cbn [forallb mapM]; [eauto |].
  unfold contains at 1, getitem at 1. intros H.
  destruct (lookup f "type") as [ty |] eqn:E; [| discriminate].
  destruct (IH H) as (types & -> & Hall). cbn [rbind]. eauto.
Qed.

Lemma mapM_hashable_raises fmaps types :
  Forall2 (fun (f : dict) ty => lookup f "type" = Some ty) fmaps types ->
  existsb (fun f => negb (has_tag f)) fmaps = true ->
  mapM hashable types = Raise TypeError.
Proof.
  induction 1 as [| f ty l tys Hf _ IH]; cbn [existsb mapM];
    [discriminate |].
  unfold has_tag, tag_of at 1. rewrite Hf.
  destruct ty as [s | d]; cbn [negb orb hashable rbind]; [| reflexivity].
  intros H. now rewrite (IH H).
Qed.

(** X2.  When every record has a ['type'] key but one of the types is not
    a string (a nested mapping cannot be hashed), building the set of
    types at line 145 raises [TypeError]; the list is not touched. *)
Theorem unhashable_type_raises :
  forall bold_meta template omp_nthreads debug fmap_bspline fmap_demean fmaps,
    forallb (fun f => contains f "type") fmaps = true ->
    existsb (fun f => negb (has_tag f)) fmaps = true ->
    init_sdc_wf bold_meta template omp_nthreads debug fmap_bspline fmap_demean
      fmaps = (fmaps, Raise TypeError).
Proof.
  intros bold_meta template omp_nthreads debug fmap_bspline fmap_demean fmaps
    Hall Hsome.
  unfold init_sdc_wf, bind, deref, lift.
  destruct (mapM_type_ok _ Hall) as (types & -> & H2).
  now rewrite (mapM_hashable_raises H2 Hsome).
Qed.

Lemma unhashable_type_raises_witness :
  forallb (fun f => contains f "type") [epi_fmap; dict_typed_fmap] = true /\
  existsb (fun f => negb (has_tag f)) [epi_fmap; dict_typed_fmap] = true /\
  sample_call [epi_fmap; dict_typed_fmap] =
  ([epi_fmap; dict_typed_fmap], Raise TypeError).
Proof.
  assert (forallb (fun f => contains f "type")
            [epi_fmap; dict_typed_fmap] = true) as H1 by reflexivity.
  assert (existsb (fun f => negb (has_tag f))
            [epi_fmap; dict_typed_fmap] = true) as H2 by reflexivity.
  split; [exact H1 |]. split; [exact H2 |].
  exact (@unhashable_type_raises sample_meta (Some "MNI152NLin2009cAsym")
           1 false false true [epi_fmap; dict_typed_fmap] H1 H2).
Defined.

(** ** Calling again, and the order of the candidates *)

(** X3.  A second call on the list as the first call left it gives the
    same outcome as the first and leaves the list as it is: the first call
    has done all the reordering there is to do. *)
Theorem second_call_changes_nothing :
  forall bold_meta template omp_nthreads debug fmap_bspline fmap_demean fmaps,
    let init := init_sdc_wf bold_meta template omp_nthreads debug
                  fmap_bspline fmap_demean in
    init (fst (init fmaps)) = (fst (init fmaps), snd (init fmaps)).
Proof.
  intros bold_meta template omp_nthreads debug fmap_bspline fmap_demean fmaps
    init.
  assert (fst (init fmaps) = fmaps \/
          (fmaps <> [] /\ Forall (fun f => known_type f = true) fmaps))
    as [E | [Hne Hk]].
  { destruct (init_state bold_meta template omp_nthreads debug fmap_bspline
                fmap_demean fmaps) as [E | [Hk E]]; [now left |].
    destruct fmaps as [| f l]; [left; exact E | right].
    split; [discriminate | exact Hk]. }
  - destruct (init fmaps) as [after outcome] eqn:Ei. cbn [fst snd] in *.
    subst after. exact Ei.
  - unfold init. rewrite (init_known _ _ _ _ _ _ Hne Hk). cbn [fst snd].
    assert (sort Nat.leb rank fmaps <> []) as Hne'.
    { intros H. apply sort_nil in H. contradiction. }
    rewrite (init_known _ _ _ _ _ _ Hne' (sort_known Hk)).
    rewrite (sort_fixed Nat.leb rank (l := sort Nat.leb rank fmaps)).
    + reflexivity.
    + apply sort_sorted; [apply nat_leb_total | apply nat_leb_trans].
Qed.

(** A list sorted by key is determined by the elements of each key taken
    in order. *)
Lemma sorted_by_classes_unique {A} (key : A -> nat) (l1 : list A) :
  forall l2,
    StronglySorted (fun a b => key a <= key b) l1 ->
    StronglySorted (fun a b => key a <= key b) l2 ->
    (forall r, filter (fun x => Nat.eqb r (key x)) l1 =
               filter (fun x => Nat.eqb r (key x)) l2) ->
    l1 = l2.
Proof.
  induction l1 as [| x t1 IH]; intros l2 H1 H2 Hf.
  - destruct l2 as [| y t2]; [reflexivity |].
    specialize (Hf (key y)). cbn [filter] in Hf.
    rewrite Nat.eqb_refl in Hf. discriminate.
  - destruct l2 as [| y t2].
    { specialize (Hf (key x)). cbn [filter] in Hf.
      rewrite Nat.eqb_refl in Hf. discriminate. }
    inversion H1 as [| ? ? Hs1 Hx]; subst.
    inversion H2 as [| ? ? Hs2 Hy]; subst.
    assert (key x = key y) as Exy.
    { apply Nat.le_antisymm.
      - assert (In y (x :: t1)) as Hin.
        { apply (proj1 (filter_In (fun z => Nat.eqb (key y) (key z)) _ _)).
          rewrite Hf. cbn [filter]. rewrite Nat.eqb_refl. now left. }
        destruct Hin as [<- | Hin]; [lia |].
        rewrite Forall_forall in Hx. now apply Hx.
      - assert (In x (y :: t2)) as Hin.
        { apply (proj1 (filter_In (fun z => Nat.eqb (key x) (key z)) _ _)).
          rewrite <- Hf. cbn [filter]. rewrite Nat.eqb_refl. now left. }
        destruct Hin as [<- | Hin]; [lia |].
        rewrite Forall_forall in Hy. now apply Hy. }
    pose proof (Hf (key x)) as Hh. cbn [filter] in Hh.
    rewrite Exy in Hh at 3. rewrite !Nat.eqb_refl in Hh.
    injection Hh as <- _. f_equal. apply IH; try assumption.
    intros r. specialize (Hf r). cbn [filter] in Hf.
    destruct (Nat.eqb r (key x)); [now injection Hf | exact Hf].
Qed.

Lemma filter_rank_type (l : list dict) r :
  Forall (fun f => known_type f = true) l ->
  filter (fun f => Nat.eqb r (rank f)) l = filter (type_is (tag_of_rank r)) l.
Proof.
  intros Hk. apply filter_ext_in. intros f Hin.
  rewrite Forall_forall in Hk. specialize (Hk f Hin).
  rewrite (type_is_tag _ _ (known_has_tag _ Hk)).
  destruct (rank_of_known _ Hk) as [[-> ->] | [[-> ->] | [[-> ->] | [-> ->]]]];
    destruct r as [| [| [| [| r]]]]; reflexivity.
Qed.

(** X4.  Only the order among fieldmaps of the same type matters: two
    lists of fieldmaps of known types that hold, for every type, the same
    fieldmaps in the same order give the same outcome and are left in the
    same state, however the types are interleaved. *)
Theorem interleaving_of_types_is_irrelevant :
  forall bold_meta template omp_nthreads debug fmap_bspline fmap_demean
         fmaps fmaps',
    Forall (fun f => known_type f = true) fmaps ->
    Forall (fun f => known_type f = true) fmaps' ->
    (forall t, filter (type_is t) fmaps = filter (type_is t) fmaps') ->
    init_sdc_wf bold_meta template omp_nthreads debug fmap_bspline fmap_demean
      fmaps =
    init_sdc_wf bold_meta template omp_nthreads debug fmap_bspline fmap_demean
      fmaps'.
Proof.
  intros bold_meta template omp_nthreads debug fmap_bspline fmap_demean
    fmaps fmaps' Hk Hk' Hsame.
  assert (sort Nat.leb rank fmaps = sort Nat.leb rank fmaps') as Es.
  { apply (sorted_by_classes_unique rank); try apply sort_rank_sorted.
    intros r.
    rewrite !(sort_filter Nat.leb rank (Nat.eqb r)).
    - rewrite !filter_rank_type by assumption. apply Hsame.
    - intros a b Ha Hb. apply Nat.eqb_eq in Ha, Hb. subst. apply Nat.leb_refl.
    - intros a b Ha Hb. apply Nat.eqb_eq in Ha, Hb. subst. apply Nat.leb_refl. }
  destruct fmaps as [| f l]; destruct fmaps' as [| f' l'].
  - reflexivity.
  - symmetry in Es. apply (sort_nil rank (f' :: l')) in Es. discriminate.
  - apply sort_nil in Es. discriminate.
  - rewrite !init_known by (assumption || discriminate). now rewrite Es.
Qed.

Lemma interleaving_of_types_is_irrelevant_witness :
  let l := [syn_fmap; epi_fmap; phasediff_fmap; epi_pa_fmap] in
  let l' := [epi_fmap; epi_pa_fmap; phasediff_fmap; syn_fmap] in
  Forall (fun f => known_type f = true) l /\
  Forall (fun f => known_type f = true) l' /\
  sample_call l = sample_call l'.
Proof.
  intros l l'.
  assert (Forall (fun f => known_type f = true) l) as Hk
    by (repeat constructor).
  assert (Forall (fun f => known_type f = true) l') as Hk'
    by (repeat constructor).
  split; [exact Hk |]. split; [exact Hk' |].
  apply (@interleaving_of_types_is_irrelevant sample_meta
           (Some "MNI152NLin2009cAsym") 1 false false true l l' Hk Hk').
  intros t. subst l l'. cbn [filter]. unfold type_is. cbn.
  destruct (String.eqb_spec "syn" t), (String.eqb_spec "epi" t),
    (String.eqb_spec "phasediff" t); try reflexivity; congruence.
Defined.

(** ** The chosen fieldmap and the end of the sorted list, in general *)

Lemma type_is_rank (f : dict) r :
  known_type f = true -> type_is (tag_of_rank r) f = Nat.eqb r (rank f).
Proof.
  intros Hk. rewrite (type_is_tag _ _ (known_has_tag _ Hk)).
  destruct (rank_of_known _ Hk) as [[-> ->] | [[-> ->] | [[-> ->] | [-> ->]]]];
    destruct r as [| [| [| [| r]]]]; reflexivity.
Qed.

(** The head of the sorted list is the first fieldmap, in input order, of
    the best type that the list holds. *)
Lemma head_is_first_of_best_type (fmaps : list dict) best rest r x :
  Forall (fun f => known_type f = true) fmaps ->
  sort Nat.leb rank fmaps = best :: rest ->
  Forall (fun f => r <= rank f) fmaps ->
  find (type_is (tag_of_rank r)) fmaps = Some x ->
  best = x /\ rank best = r.
Proof.
  intros Hk E Hge Hfind.
  destruct (sort_head rank fmaps E) as (l1 & l2 & Hl & H1 & H2).
  destruct (find_some _ _ Hfind) as [Hin Hty].
  rewrite Forall_forall in Hk, Hge.
  rewrite (@type_is_rank x r (Hk _ Hin)) in Hty. apply Nat.eqb_eq in Hty.
  assert (In best fmaps) as Hinb by (rewrite Hl; apply in_or_app; simpl; auto).
  assert (rank best = r) as Hr.
  { apply Nat.le_antisymm; [| now apply Hge]. rewrite Hty.
    rewrite Hl in Hin. apply in_app_or in Hin. rewrite Forall_forall in H1, H2.
    destruct Hin as [Hi | [<- | Hi]]; [apply H1 in Hi; lia | lia | auto]. }
  split; [| exact Hr].
  rewrite Hl in Hfind. rewrite (@find_skip _ _ l1 best l2) in Hfind.
  - congruence.
  - rewrite Forall_forall in H1 |- *. intros y Hy.
    rewrite (@type_is_rank y r)
      by (apply Hk; rewrite Hl; apply in_or_app; auto).
    apply Nat.eqb_neq. specialize (H1 _ Hy). lia.
  - rewrite (@type_is_rank best r (Hk _ Hinb)). now apply Nat.eqb_eq.
Qed.

(** The sorted list ends with a ['syn'] fieldmap exactly when the list
    holds one. *)
Lemma last_is_syn (fmaps : list dict) last_fmap :
  Forall (fun f => known_type f = true) fmaps ->
  final (sort Nat.leb rank fmaps) = Ok last_fmap ->
  (tag last_fmap =? "syn") = existsb (type_is "syn") fmaps.
Proof.
  intros Hk Hf.
  pose proof (sort_perm Nat.leb rank fmaps) as Hperm.
  pose proof (sort_known Hk) as Hks.
  pose proof (final_ok_in _ Hf) as Hin.
  assert (has_tag last_fmap = true) as Htl.
  { apply known_has_tag. rewrite Forall_forall in Hks. now apply Hks. }
  destruct (existsb (type_is "syn") fmaps) eqn:Ex.
  - apply existsb_exists in Ex. destruct Ex as (s & Hins & Hs).
    destruct (type_is_inv _ _ Hs) as [_ Es]. apply String.eqb_eq.
    apply (@sorted_last_syn (sort Nat.leb rank fmaps) last_fmap s Hks
             (sort_rank_sorted fmaps) Hf);
      [eapply Permutation_in; eassumption | exact Es].
  - rewrite <- (type_is_tag _ _ Htl).
    destruct (type_is "syn" last_fmap) eqn:Et; [| reflexivity].
    rewrite <- Ex. symmetry. apply existsb_exists. exists last_fmap.
    split; [| exact Et]. eapply Permutation_in; [symmetry |]; eassumption.
Qed.

Lemma epi_polarities_spec (l : list dict) :
  Forall (fun f => has_tag f = true) l ->
  forallb epi_complete (filter (type_is "epi") l) = true ->
  exists eps,
    epi_polarities l = Ok eps /\
    Forall2 polarity_of (filter (type_is "epi") l) eps.
Proof.
  induction 1 as [| f l Hf _ IH]; cbn [epi_polarities filter]; intros H;
    [eauto |].
  rewrite (getitem_type _ Hf). cbn [rbind eq_str].
  rewrite (type_is_tag _ _ Hf) in H |- *.
  destruct (tag f =? "epi"); [| auto].
  cbn [forallb] in H. apply andb_prop in H. destruct H as [Hc H].
  destruct (IH H) as (eps & -> & Hall).
  unfold epi_complete, contains in Hc. unfold getitem, subscript.
  destruct (lookup f "epi") as [img |] eqn:Ei; [| discriminate].
  destruct (lookup f "metadata") as [[s | meta] |] eqn:Em; try discriminate.
  cbn [rbind andb] in *. unfold getitem.
  destruct (lookup meta "PhaseEncodingDirection") as [pe |] eqn:Ep;
    [| discriminate].
  cbn [rbind]. eexists. split; [reflexivity |].
  constructor; [| exact Hall]. split; [exact Ei |]. eauto.
Qed.

(** The workflow that [compose] builds from a sorted list headed by an
    ['epi'] fieldmap whose EPI entries can all be read. *)
Lemma compose_epi bold_meta template omp_nthreads debug fmap_bspline
    fmap_demean best rest eps last_fmap wf0 :
  has_tag best = true -> tag best = "epi" ->
  epi_polarities (best :: rest) = Ok eps ->
  final (best :: rest) = Ok last_fmap -> has_tag last_fmap = true ->
  let pepolar := PepolarUnwarp "pepolar_unwarp_wf" bold_meta eps
                   omp_nthreads in
  let syn := SynSdc template (lookup bold_meta "PhaseEncodingDirection")
               omp_nthreads in
  let primary := set_sdc_method wf0 PEPOLAR_METHOD in
  let reported :=
    connect
      (connect primary
         [(inputnode, syn,
           [("t1_brain", "inputnode.t1_brain");
            ("t1_2_mni_reverse_transform",
             "inputnode.t1_2_mni_reverse_transform");
            ("bold_ref_brain", "inputnode.bold_ref")])])
      [(syn, outputnode, [("outputnode.out_warp_report", "syn_bold_ref")])] in
  compose bold_meta template omp_nthreads debug fmap_bspline fmap_demean
    (best :: rest) wf0 =
  Ok (connect (if tag last_fmap =? "syn" then reported else primary)
        [(pepolar, outputnode,
          [("outputnode.out_warp", "out_warp");
           ("outputnode.out_reference", "bold_ref");
           ("outputnode.out_reference_brain", "bold_ref_brain");
           ("outputnode.out_mask", "bold_mask")])]).
Proof.
  intros Ht E Hp Hf Hl. unfold compose. cbn [first rbind].
  rewrite pepolar_path_tag by assumption.
  rewrite E. cbn [String.eqb Ascii.eqb Bool.eqb]. rewrite Hp. cbn [rbind].
  rewrite fieldmap_path_tag by assumption.
  rewrite E. cbn [String.eqb Ascii.eqb Bool.eqb rbind].
  erewrite syn_path_tag by eassumption.
  destruct (String.eqb_spec (tag last_fmap) "syn") as [Es | _].
  - destruct rest as [| r rest].
    + unfold final in Hf. simpl in Hf. injection Hf as <-. congruence.
    + reflexivity.
  - reflexivity.
Qed.

(** The same for a ['fieldmap'] entry that has its two images. *)
Lemma compose_fieldmap bold_meta template omp_nthreads debug fmap_bspline
    fmap_demean best rest v m last_fmap wf0 :
  has_tag best = true -> tag best = "fieldmap" ->
  lookup best "fieldmap" = Some v -> lookup best "magnitude" = Some m ->
  final (best :: rest) = Ok last_fmap -> has_tag last_fmap = true ->
  let est := FmapEstimator omp_nthreads fmap_bspline
               [("fieldmap", One v); ("magnitude", One m)] in
  let unwarp := SdcUnwarp "sdc_unwarp_wf" omp_nthreads fmap_demean debug in
  let syn := SynSdc template (lookup bold_meta "PhaseEncodingDirection")
               omp_nthreads in
  let primary :=
    connect (set_sdc_method wf0 "FMB (fieldmap-based)")
      [(inputnode, unwarp, [("name_source", "inputnode.name_source")]);
       (est, unwarp,
        [("outputnode.fmap", "inputnode.fmap");
         ("outputnode.fmap_ref", "inputnode.fmap_ref");
         ("outputnode.fmap_mask", "inputnode.fmap_mask")])] in
  let reported :=
    connect
      (connect primary
         [(inputnode, syn,
           [("t1_brain", "inputnode.t1_brain");
            ("t1_2_mni_reverse_transform",
             "inputnode.t1_2_mni_reverse_transform");
            ("bold_ref_brain", "inputnode.bold_ref")])])
      [(syn, outputnode, [("outputnode.out_warp_report", "syn_bold_ref")])] in
  compose bold_meta template omp_nthreads debug fmap_bspline fmap_demean
    (best :: rest) wf0 =
  Ok (connect (if tag last_fmap =? "syn" then reported else primary)
        [(unwarp, outputnode,
          [("outputnode.out_warp", "out_warp");
           ("outputnode.out_reference", "bold_ref");
           ("outputnode.out_reference_brain", "bold_ref_brain");
           ("outputnode.out_mask", "bold_mask")])]).
Proof.
  intros Ht E Hv Hm Hf Hl. unfold compose. cbn [first rbind].
  rewrite pepolar_path_tag by assumption.
  rewrite E. cbn [String.eqb Ascii.eqb Bool.eqb rbind].
  rewrite fieldmap_path_tag by assumption.
  rewrite E. cbn [String.eqb Ascii.eqb Bool.eqb rbind].
  unfold getitem. rewrite Hv, Hm. cbn [rbind].
  erewrite syn_path_tag by eassumption.
  destruct (String.eqb_spec (tag last_fmap) "syn") as [Es | _].
  - destruct rest as [| r rest].
    + unfold final in Hf. simpl in Hf. injection Hf as <-. congruence.
    + reflexivity.
  - reflexivity.
Qed.

(** ** The PEPOLAR and the direct fieldmap paths *)

(** X5.  When the list holds an ['epi'] fieldmap and every ['epi'] entry
    has its image and the phase-encoding direction of its metadata, the
    PEPOLAR sub-workflow is built from all the ['epi'] entries, in the
    order the caller gave them, and feeds the four outputs; a ['syn'] entry
    adds the fallback with its report on [syn_bold_ref].  Fieldmaps of the
    other types are not used.  Without a ['syn'] entry no edge leaves the
    input node, so the returned graph does not hold it. *)
Theorem pepolar_path_uses_every_epi :
  forall bold_meta template omp_nthreads debug fmap_bspline fmap_demean fmaps,
    Forall (fun f => known_type f = true) fmaps ->
    existsb (type_is "epi") fmaps = true ->
    forallb epi_complete (filter (type_is "epi") fmaps) = true ->
    exists wf eps,
      snd (init_sdc_wf bold_meta template omp_nthreads debug fmap_bspline
             fmap_demean fmaps) = Ok wf /\
      Forall2 polarity_of (filter (type_is "epi") fmaps) eps /\
      name wf = "sdc_wf" /\
      sdc_method wf = Some PEPOLAR_METHOD /\
      let pepolar := PepolarUnwarp "pepolar_unwarp_wf" bold_meta eps
                       omp_nthreads in
      let syn := SynSdc template (lookup bold_meta "PhaseEncodingDirection")
                   omp_nthreads in
      edges wf =
      (if existsb (type_is "syn") fmaps
       then syn_edges syn ++ report_edges syn else []) ++
      output_edges pepolar /\
      (existsb (type_is "syn") fmaps = false ->
       interface wf "inputnode" = None).
Proof.
  intros bold_meta template omp_nthreads debug fmap_bspline fmap_demean fmaps
    Hk Hepi Hc.
  assert (fmaps <> []) as Hne by (intros ->; discriminate).
  rewrite init_known by assumption. cbn [snd].
  pose proof (sort_known Hk) as Hks.
  pose proof (@last_is_syn fmaps) as Hlast.
  assert (filter (type_is "epi") (sort Nat.leb rank fmaps) =
          filter (type_is "epi") fmaps) as Hstable.
  { rewrite <- !(@filter_rank_type _ 0) by assumption.
    apply (sort_filter Nat.leb rank (Nat.eqb 0)).
    intros a b Ha Hb. apply Nat.eqb_eq in Ha, Hb. subst. reflexivity. }
  destruct (find (type_is (tag_of_rank 0)) fmaps) as [x |] eqn:Hfind.
  2:{ apply existsb_exists in Hepi. destruct Hepi as (e & Hin & He).
      apply (find_none _ _ Hfind) in Hin. cbn [tag_of_rank] in Hin.
      congruence. }
  destruct (sort Nat.leb rank fmaps) as [| best rest] eqn:E.
  { apply sort_nil in E. contradiction. }
  destruct (@head_is_first_of_best_type fmaps best rest 0 x Hk E) as [_ Hr];
    [apply Forall_forall; intros; lia | exact Hfind |].
  inversion Hks as [| ? ? Hkb _]; subst.
  assert (tag best = "epi") as Et.
  { destruct (rank_of_known _ Hkb) as [[? ?] | [[? ?] | [[? ?] | [? ?]]]];
      [assumption | lia ..]. }
  destruct (@epi_polarities_spec (best :: rest)) as (eps & Hp & Hall).
  { eapply Forall_impl; [| exact Hks]. apply known_has_tag. }
  { rewrite Hstable. exact Hc. }
  destruct (@final_in _ (best :: rest)) as (last_fmap & Hf & Hinl);
    [discriminate |].
  assert (has_tag last_fmap = true) as Htl.
  { apply known_has_tag. rewrite Forall_forall in Hks. now apply Hks. }
  erewrite compose_epi by (eassumption || now apply known_has_tag).
  rewrite (Hlast _ Hk Hf). rewrite Hstable in Hall.
  eexists. exists eps. split; [reflexivity |]. split; [exact Hall |].
  destruct (existsb (type_is "syn") fmaps).
  - repeat split. discriminate.
  - repeat split.
Qed.

Lemma pepolar_path_uses_every_epi_witness :
  let fmaps := [phasediff_fmap; epi_fmap; epi_pa_fmap] in
  Forall (fun f => known_type f = true) fmaps /\
  forallb epi_complete (filter (type_is "epi") fmaps) = true /\
  exists wf,
    snd (sample_call fmaps) = Ok wf /\
    edges wf =
    output_edges
      (PepolarUnwarp "pepolar_unwarp_wf" sample_meta
         [(Str "sub-03_dir-AP_epi.nii.gz", "j-");
          (Str "sub-03_dir-PA_epi.nii.gz", "j")] 1) /\
    interface wf "inputnode" = None.
Proof.
  intros fmaps.
  assert (Forall (fun f => known_type f = true) fmaps) as Hk
    by (repeat constructor).
  assert (forallb epi_complete (filter (type_is "epi") fmaps) = true) as Hc
    by reflexivity.
  split; [exact Hk |]. split; [exact Hc |].
  destruct (@pepolar_path_uses_every_epi sample_meta
              (Some "MNI152NLin2009cAsym") 1 false false true fmaps
              Hk eq_refl Hc)
    as (wf & eps & Hwf & _ & _ & _ & _ & Hnone).
  exists wf. split; [exact Hwf |].
  split; [| exact (Hnone eq_refl)].
  vm_compute in Hwf. injection Hwf as <-. reflexivity.
Defined.

(** X6.  Without ['epi'] entries, when the first ['fieldmap'] entry of the
    list has its ['fieldmap'] and ['magnitude'] images, the direct
    estimator is given these two images, feeds the unwarp sub-workflow
    together with [name_source], and the unwarp feeds the four outputs;
    later ['fieldmap'] entries and ['phasediff'] entries are not used, and
    a ['syn'] entry adds the fallback with its report on [syn_bold_ref]. *)
Theorem direct_fieldmap_path :
  forall bold_meta template omp_nthreads debug fmap_bspline fmap_demean
         fmaps fm v m,
    Forall (fun f => known_type f = true) fmaps ->
    existsb (type_is "epi") fmaps = false ->
    find (type_is "fieldmap") fmaps = Some fm ->
    lookup fm "fieldmap" = Some v ->
    lookup fm "magnitude" = Some m ->
    let est := FmapEstimator omp_nthreads fmap_bspline
                 [("fieldmap", One v); ("magnitude", One m)] in
    let unwarp := SdcUnwarp "sdc_unwarp_wf" omp_nthreads fmap_demean debug in
    let syn := SynSdc template (lookup bold_meta "PhaseEncodingDirection")
                 omp_nthreads in
    exists wf,
      snd (init_sdc_wf bold_meta template omp_nthreads debug fmap_bspline
             fmap_demean fmaps) = Ok wf /\
      name wf = "sdc_wf" /\
      sdc_method wf = Some "FMB (fieldmap-based)" /\
      edges wf =
      unwarp_edges est unwarp ++
      (if existsb (type_is "syn") fmaps
       then syn_edges syn ++ report_edges syn else []) ++
      output_edges unwarp.
Proof.
  intros bold_meta template omp_nthreads debug fmap_bspline fmap_demean
    fmaps fm v m Hk Hnoepi Hfind Hv Hm est unwarp syn.
  assert (fmaps <> []) as Hne by (intros ->; discriminate).
  rewrite init_known by assumption. cbn [snd].
  pose proof (sort_known Hk) as Hks.
  pose proof (@last_is_syn fmaps) as Hlast.
  destruct (sort Nat.leb rank fmaps) as [| best rest] eqn:E.
  { apply sort_nil in E. contradiction. }
  destruct (@head_is_first_of_best_type fmaps best rest 1 fm Hk E)
    as [-> Hr]; [| exact Hfind |].
  { apply Forall_forall. intros f Hin.
    rewrite Forall_forall in Hk. pose proof (Hk _ Hin) as Hkf.
    assert (type_is "epi" f = false) as Hne'.
    { destruct (type_is "epi" f) eqn:Ee; [| reflexivity].
      rewrite <- Hnoepi. symmetry. apply existsb_exists. eauto. }
    rewrite (type_is_tag _ _ (known_has_tag _ Hkf)) in Hne'.
    destruct (rank_of_known _ Hkf) as [[Et ?] | [[? ?] | [[? ?] | [? ?]]]];
      try lia. rewrite Et in Hne'. discriminate. }
  inversion Hks as [| ? ? Hkb _]; subst.
  assert (tag fm = "fieldmap") as Et.
  { destruct (rank_of_known _ Hkb) as [[? ?] | [[? ?] | [[? ?] | [? ?]]]];
      [lia | assumption | lia ..]. }
  destruct (@final_in _ (fm :: rest)) as (last_fmap & Hf & Hinl);
    [discriminate |].
  assert (has_tag last_fmap = true) as Htl.
  { apply known_has_tag. rewrite Forall_forall in Hks. now apply Hks. }
  erewrite compose_fieldmap by (eassumption || now apply known_has_tag).
  rewrite (Hlast _ Hk Hf).
  eexists. split; [reflexivity |].
  destruct (existsb (type_is "syn") fmaps); repeat split.
Qed.

Lemma direct_fieldmap_path_witness :
  let fmaps := [syn_fmap; phasediff_fmap; fieldmap_fmap] in
  let est := FmapEstimator 1 false
               [("fieldmap", One (Str "sub-03_fieldmap.nii.gz"));
                ("magnitude", One (Str "sub-03_magnitude.nii.gz"))] in
  let unwarp := SdcUnwarp "sdc_unwarp_wf" 1 true false in
  let syn := SynSdc (Some "MNI152NLin2009cAsym") (Some (Str "j")) 1 in
  Forall (fun f => known_type f = true) fmaps /\
  find (type_is "fieldmap") fmaps = Some fieldmap_fmap /\
  exists wf,
    snd (sample_call fmaps) = Ok wf /\
    sdc_method wf = Some "FMB (fieldmap-based)" /\
    edges wf =
    unwarp_edges est unwarp ++ (syn_edges syn ++ report_edges syn) ++
    output_edges unwarp.
Proof.
  intros fmaps est unwarp syn.
  assert (Forall (fun f => known_type f = true) fmaps) as Hk
    by (repeat constructor).
  assert (find (type_is "fieldmap") fmaps = Some fieldmap_fmap) as Hfind
    by reflexivity.
  split; [exact Hk |]. split; [exact Hfind |].
  destruct (@direct_fieldmap_path sample_meta (Some "MNI152NLin2009cAsym")
              1 false false true fmaps fieldmap_fmap
              (Str "sub-03_fieldmap.nii.gz") (Str "sub-03_magnitude.nii.gz")
              Hk eq_refl Hfind eq_refl eq_refl)
    as (wf & Hwf & _ & Hm & He).
  exists wf. repeat split; assumption.
Defined.

(** ** What feeds the outputs of any returned workflow *)

Lemma drivers_connect wf l port :
  drivers (connect wf l) port =
  drivers wf port ++
  drivers
    {| name := ""; sdc_method := None;
       edges := flat_map (fun '(a, b, ports) =>
                            map (fun '(p, q) => Edge a p b q) ports) l |}
    port.
Proof.
  unfold drivers, connect. cbn [edges].
  now rewrite filter_app, map_app.
Qed.

Lemma drivers_set_sdc_method wf label port :
  drivers (set_sdc_method wf label) port = drivers wf port.
Proof. reflexivity. Qed.

Lemma eq_str_inv v s : eq_str v s = true -> v = Str s.
Proof.
  destruct v as [s' | d]; cbn [eq_str]; [| discriminate].
  intros H. apply String.eqb_eq in H. now subst.
Qed.

Section Wiring.
Variables (bold_meta : dict) (template : option string) (omp_nthreads : nat)
          (debug fmap_bspline fmap_demean : bool).

(** The sub-workflow [u] is the one that the method label [method]
    names, given the edges made so far. *)
Local Abbreviation labelled u method es :=
  ((exists eps,
       u = PepolarUnwarp "pepolar_unwarp_wf" bold_meta eps omp_nthreads /\
       method = Some PEPOLAR_METHOD) \/
   (u = SdcUnwarp "sdc_unwarp_wf" omp_nthreads fmap_demean debug /\
    exists est,
      In (Edge est "outputnode.fmap" u "inputnode.fmap") es /\
      ((exists inputs,
           est = FmapEstimator omp_nthreads fmap_bspline inputs /\
           method = Some "FMB (fieldmap-based)") \/
       (exists inputs,
           est = PhdiffEstimator omp_nthreads inputs /\
           method = Some "FMB (phasediff-based)")))).

(** Before the FIELDMAP-less block: nothing feeds the output node yet, and
    [sdc_unwarp_wf], if assigned, goes with the method label. *)
Local Abbreviation primed fr :=
  ((forall port, drivers (workflow fr) port = []) /\
   name (workflow fr) = "sdc_wf" /\
   forall u, sdc_unwarp_wf fr = Some u ->
             labelled u (sdc_method (workflow fr)) (edges (workflow fr))).

Lemma pepolar_path_primed fmaps fmap fr fr' :
  pepolar_path bold_meta omp_nthreads fmaps fmap fr = Ok fr' ->
  primed fr -> primed fr'.
Proof.
  unfold pepolar_path. intros H (Hd & Hn & Hu).
  destruct (getitem fmap "type") as [ty |]; [| discriminate].
  cbn [rbind] in H. destruct (eq_str ty "epi").
  - destruct (epi_polarities fmaps) as [eps |]; [| discriminate].
    injection H as <-. cbn [workflow sdc_unwarp_wf].
    split; [exact Hd |]. split; [exact Hn |].
    intros u E. injection E as <-. left. eexists. split; reflexivity.
  - injection H as <-. auto.
Qed.

Lemma fieldmap_path_primed fmap fr fr' :
  fieldmap_path omp_nthreads debug fmap_bspline fmap_demean fmap fr = Ok fr' ->
  primed fr -> primed fr'.
Proof.
  unfold fieldmap_path. intros H (Hd & Hn & Hu).
  destruct (getitem fmap "type") as [ty |]; [| discriminate].
  cbn [rbind] in H.
  destruct (eq_str ty "fieldmap" || eq_str ty "phasediff");
    [| injection H as <-; auto].
  assert (forall est,
             ((exists inputs,
                  est = FmapEstimator omp_nthreads fmap_bspline inputs /\
                  ty = Str "fieldmap") \/
              (exists inputs,
                  est = PhdiffEstimator omp_nthreads inputs /\
                  ty = Str "phasediff")) ->
             Ok {| workflow :=
                     connect
                       (set_sdc_method (workflow fr)
                          ("FMB (" ++ percent_s ty ++ "-based)")%string)
                       [(inputnode,
                         init_sdc_unwarp_wf omp_nthreads fmap_demean debug
                           "sdc_unwarp_wf",
                         [("name_source", "inputnode.name_source")]);
                        (est,
                         init_sdc_unwarp_wf omp_nthreads fmap_demean debug
                           "sdc_unwarp_wf",
                         [("outputnode.fmap", "inputnode.fmap");
                          ("outputnode.fmap_ref", "inputnode.fmap_ref");
                          ("outputnode.fmap_mask", "inputnode.fmap_mask")])];
                   sdc_unwarp_wf :=
                     Some (init_sdc_unwarp_wf omp_nthreads fmap_demean
                             debug "sdc_unwarp_wf") |} = Ok fr' ->
             primed fr') as Hend.
  { intros est Hest Hfr. injection Hfr as <-. cbn [workflow sdc_unwarp_wf].
    split; [| split].
    - intros port. rewrite drivers_connect, drivers_set_sdc_method, Hd.
      reflexivity.
    - exact Hn.
    - intros u E. injection E as <-. right. split; [reflexivity |].
      exists est. split.
      + cbn [connect edges]. apply in_or_app. right. cbn. auto.
      + destruct Hest as [(i & -> & ->) | (i & -> & ->)];
          [left | right]; eauto. }
  destruct (eq_str ty "fieldmap") eqn:Ef.
  - apply eq_str_inv in Ef. subst ty. cbn [eq_str String.eqb Ascii.eqb
                                            Bool.eqb] in H.
    destruct (getitem fmap "fieldmap") as [fm |]; [| discriminate].
    cbn [rbind] in H.
    destruct (getitem fmap "magnitude") as [mg |]; [| discriminate].
    cbn [rbind] in H. refine (Hend _ _ H). left.
    eexists. split; reflexivity.
  - cbn [rbind] in H. destruct (eq_str ty "phasediff") eqn:Ep.
    + apply eq_str_inv in Ep. subst ty.
      destruct (getitem fmap "phasediff") as [p |]; [| discriminate].
      cbn [rbind] in H. refine (Hend _ _ H). right.
      eexists. split; reflexivity.
    + cbn [rbind] in H. discriminate.
Qed.

(** What [compose] returns: one sub-workflow [u] feeds [out_warp],
    [bold_ref], [bold_ref_brain] and [bold_mask]; it is the fallback with
    the fallback's label, or the sub-workflow that the label names; and
    [syn_bold_ref] is fed by the report of the fallback or by nothing, the
    former only when [u] is not the fallback. *)
Lemma compose_wiring fmaps wf :
  compose bold_meta template omp_nthreads debug fmap_bspline fmap_demean
    fmaps (new_workflow "sdc_wf") = Ok wf ->
  let syn := SynSdc template (lookup bold_meta "PhaseEncodingDirection")
               omp_nthreads in
  exists u reported last_fmap ty,
    final fmaps = Ok last_fmap /\
    lookup last_fmap "type" = Some ty /\
    reported = eq_str ty "syn" && negb (Nat.eqb (List.length fmaps) 1) /\
    name wf = "sdc_wf" /\
    drivers wf "out_warp" = [(u, "outputnode.out_warp")] /\
    drivers wf "bold_ref" = [(u, "outputnode.out_reference")] /\
    drivers wf "bold_ref_brain" = [(u, "outputnode.out_reference_brain")] /\
    drivers wf "bold_mask" = [(u, "outputnode.out_mask")] /\
    drivers wf "syn_bold_ref" =
    (if reported : bool then [(syn, "outputnode.out_warp_report")] else []) /\
    ((u = syn /\ sdc_method wf = Some SYN_METHOD /\ reported = false) \/
     labelled u (sdc_method wf) (edges wf)).
Proof.
  intros H syn. unfold compose in H.
  apply rbind_ok in H. destruct H as (fmap & _ & H).
  apply rbind_ok in H. destruct H as (fr1 & H1 & H).
  apply rbind_ok in H. destruct H as (fr2 & H2 & H).
  apply rbind_ok in H. destruct H as (fr3 & H3 & H).
  assert (primed fr2) as (Hd & Hn & Hu).
  { eapply fieldmap_path_primed; [exact H2 |].
    eapply pepolar_path_primed; [exact H1 |].
    cbn [workflow sdc_unwarp_wf]. split; [reflexivity |].
    split; [reflexivity | discriminate]. }
  unfold syn_path in H3.
  destruct (final fmaps) as [last_fmap |]; [| discriminate].
  cbn [rbind] in H3. unfold getitem in H3.
  destruct (lookup last_fmap "type") as [ty |] eqn:Ety; [| discriminate].
  cbn [rbind] in H3. fold syn in H3. unfold wire_outputs in H.
  destruct (eq_str ty "syn") eqn:Es.
  - destruct (Nat.eqb (List.length fmaps) 1) eqn:El; injection H3 as <-;
      cbn [workflow sdc_unwarp_wf] in H.
    + injection H as <-. exists syn, false, last_fmap, ty.
      rewrite Es.
      rewrite !drivers_connect, !drivers_set_sdc_method, !drivers_connect,
        !Hd.
      repeat split; try assumption. left. repeat split.
    + destruct (sdc_unwarp_wf fr2) as [u |] eqn:Eu; [| discriminate].
      injection H as <-. exists u, true, last_fmap, ty.
      rewrite Es. rewrite !drivers_connect, !Hd.
      repeat split; try assumption. right.
      destruct (Hu u eq_refl) as [Hp | (-> & est & Hin & Hest)];
        [left; exact Hp | right].
      split; [reflexivity |]. exists est. split; [| exact Hest].
      cbn [connect edges]. apply in_or_app. left. apply in_or_app. left.
      apply in_or_app. now left.
  - injection H3 as <-.
    destruct (sdc_unwarp_wf fr2) as [u |] eqn:Eu; [| discriminate].
    injection H as <-. exists u, false, last_fmap, ty.
    rewrite Es. rewrite !drivers_connect, !Hd.
    repeat split; try assumption. right.
    destruct (Hu u eq_refl) as [Hp | (-> & est & Hin & Hest)];
      [left; exact Hp | right].
    split; [reflexivity |]. exists est. split; [| exact Hest].
    cbn [connect edges]. apply in_or_app. now left.
Qed.
End Wiring.

(** X7.  In every workflow that a call returns, other than the bypass,
    one and the same sub-workflow feeds [out_warp], [bold_ref],
    [bold_ref_brain] and [bold_mask], each from its matching output, and
    the method label names that sub-workflow: the PEPOLAR label goes with
    the PEPOLAR sub-workflow, a fieldmap-based label with the unwarp
    sub-workflow fed by the estimator of that kind, and the fieldmap-less
    label with the fallback. *)
Theorem method_label_names_the_correction :
  forall bold_meta template omp_nthreads debug fmap_bspline fmap_demean fmaps
         wf,
    snd (init_sdc_wf bold_meta template omp_nthreads debug fmap_bspline
           fmap_demean fmaps) = Ok wf ->
    wf = bypass (new_workflow "sdc_bypass_wf") \/
    (name wf = "sdc_wf" /\
     exists u,
       drivers wf "out_warp" = [(u, "outputnode.out_warp")] /\
       drivers wf "bold_ref" = [(u, "outputnode.out_reference")] /\
       drivers wf "bold_ref_brain" = [(u, "outputnode.out_reference_brain")] /\
       drivers wf "bold_mask" = [(u, "outputnode.out_mask")] /\
       ((exists eps,
            u = PepolarUnwarp "pepolar_unwarp_wf" bold_meta eps omp_nthreads /\
            sdc_method wf = Some PEPOLAR_METHOD) \/
        (u = SdcUnwarp "sdc_unwarp_wf" omp_nthreads fmap_demean debug /\
         exists inputs,
           (In (Edge (FmapEstimator omp_nthreads fmap_bspline inputs)
                  "outputnode.fmap" u "inputnode.fmap") (edges wf) /\
            sdc_method wf = Some "FMB (fieldmap-based)") \/
           (In (Edge (PhdiffEstimator omp_nthreads inputs)
                  "outputnode.fmap" u "inputnode.fmap") (edges wf) /\
            sdc_method wf = Some "FMB (phasediff-based)")) \/
        (u = SynSdc template (lookup bold_meta "PhaseEncodingDirection")
               omp_nthreads /\
         sdc_method wf = Some SYN_METHOD))).
Proof.
  intros bold_meta template omp_nthreads debug fmap_bspline fmap_demean fmaps
    wf H.
  apply init_outcome in H. destruct H as [-> | [sorted H]]; [now left |].
  right. apply compose_wiring in H. cbv zeta in H.
  destruct H as (u & reported & last_fmap & ty & _ & _ & _ & Hn & H1 & H2
                 & H3 & H4 & _ & Hl).
  split; [exact Hn |]. exists u. repeat (split; [assumption |]).
  destruct Hl as [(-> & Hm & _) | [Hp | (-> & est & Hin & Hest)]].
  - right. right. now split.
  - now left.
  - right. left. split; [reflexivity |].
    destruct Hest as [(i & -> & Hm) | (i & -> & Hm)]; exists i; auto.
Qed.

Lemma method_label_names_the_correction_witness :
  exists wf u,
    snd (sample_call [syn_fmap; fieldmap_fmap]) = Ok wf /\
    drivers wf "out_warp" = [(u, "outputnode.out_warp")] /\
    u = SdcUnwarp "sdc_unwarp_wf" 1 true false /\
    sdc_method wf = Some "FMB (fieldmap-based)".
Proof.
  destruct (@method_label_names_the_correction sample_meta
              (Some "MNI152NLin2009cAsym") 1 false false true
              [syn_fmap; fieldmap_fmap] _ eq_refl)
    as [H | (_ & u & H1 & _)]; [discriminate H |].
  eexists. exists u. split; [reflexivity |]. split; [exact H1 |].
  split; [| reflexivity]. vm_compute in H1. now injection H1 as <-.
Defined.

(** X8.  The fallback never both corrects and reports: in a returned
    workflow [syn_bold_ref] is fed by nothing, or by the report output of
    the fallback alone, and in the latter case the sub-workflow that feeds
    [out_warp] is another one and the method label is not the one of the
    fallback. *)
Theorem fallback_reports_or_corrects :
  forall bold_meta template omp_nthreads debug fmap_bspline fmap_demean fmaps
         wf,
    snd (init_sdc_wf bold_meta template omp_nthreads debug fmap_bspline
           fmap_demean fmaps) = Ok wf ->
    drivers wf "syn_bold_ref" = [] \/
    (drivers wf "syn_bold_ref" =
     [(SynSdc template (lookup bold_meta "PhaseEncodingDirection")
         omp_nthreads, "outputnode.out_warp_report")] /\
     sdc_method wf <> Some SYN_METHOD /\
     exists u, drivers wf "out_warp" = [(u, "outputnode.out_warp")] /\
               is_syn_node u = false).
Proof.
  intros bold_meta template omp_nthreads debug fmap_bspline fmap_demean fmaps
    wf H.
  apply init_outcome in H. destruct H as [-> | [sorted H]]; [now left |].
  apply compose_wiring in H. cbv zeta in H.
  destruct H as (u & reported & last_fmap & ty & _ & _ & _ & _ & H1 & _
                 & _ & _ & Hr & Hl).
  destruct reported; [right | now left].
  split; [exact Hr |].
  destruct Hl as [(_ & _ & E) | [(eps & -> & Hm) | (-> & est & _ & Hest)]];
    [discriminate E | |].
  - split; [| eauto]. rewrite Hm. intros E. vm_compute in E. discriminate E.
  - split; [| eauto].
    destruct Hest as [(i & _ & Hm) | (i & _ & Hm)]; rewrite Hm; intros E;
      vm_compute in E; discriminate E.
Qed.

Lemma fallback_reports_or_corrects_witness :
  exists wf,
    snd (sample_call [syn_fmap; epi_fmap]) = Ok wf /\
    drivers wf "syn_bold_ref" =
    [(SynSdc (Some "MNI152NLin2009cAsym") (Some (Str "j")) 1,
      "outputnode.out_warp_report")] /\
    sdc_method wf <> Some SYN_METHOD.
Proof.
  eexists. split; [reflexivity |].
  destruct (@fallback_reports_or_corrects sample_meta
              (Some "MNI152NLin2009cAsym") 1 false false true
              [syn_fmap; epi_fmap] _ eq_refl) as [H | (H & Hm & _)];
    [discriminate H |].
  split; [exact H | exact Hm].
Defined.

(** X9.  On fieldmaps of known types, a returned workflow has the report
    of the fallback on [syn_bold_ref] exactly when the list holds a
    ['syn'] entry and is longer than one entry; otherwise nothing feeds
    that output. *)
Theorem report_iff_syn_beside_another :
  forall bold_meta template omp_nthreads debug fmap_bspline fmap_demean fmaps
         wf,
    Forall (fun f => known_type f = true) fmaps ->
    snd (init_sdc_wf bold_meta template omp_nthreads debug fmap_bspline
           fmap_demean fmaps) = Ok wf ->
    drivers wf "syn_bold_ref" =
    if existsb (type_is "syn") fmaps && negb (Nat.eqb (List.length fmaps) 1)
    then [(SynSdc template (lookup bold_meta "PhaseEncodingDirection")
             omp_nthreads, "outputnode.out_warp_report")]
    else [].
Proof.
  intros bold_meta template omp_nthreads debug fmap_bspline fmap_demean fmaps
    wf Hk H.
  destruct fmaps as [| f l].
  { cbn in H. injection H as <-. reflexivity. }
  assert (f :: l <> []) as Hne by discriminate.
  rewrite (init_known _ _ _ _ _ _ Hne Hk) in H. cbn [snd] in H.
  apply compose_wiring in H. cbv zeta in H.
  destruct H as (u & reported & last_fmap & ty & Hf & Hty & -> & _ & _ & _
                 & _ & _ & Hr & _).
  rewrite Hr.
  pose proof (@last_is_syn (f :: l) last_fmap Hk Hf) as Hlast.
  pose proof (sort_known Hk) as Hks.
  assert (has_tag last_fmap = true) as Htl.
  { apply known_has_tag. rewrite Forall_forall in Hks. apply Hks.
    now apply final_ok_in. }
  rewrite <- Hlast, <- (type_is_tag _ _ Htl).
  unfold type_is. rewrite Hty.
  now rewrite <- (Permutation_length (sort_perm Nat.leb rank (f :: l))).
Qed.

Lemma report_iff_syn_beside_another_witness :
  Forall (fun f => known_type f = true) [syn_fmap] /\
  exists wf,
    snd (sample_call [syn_fmap]) = Ok wf /\
    drivers wf "syn_bold_ref" = [].
Proof.
  assert (Forall (fun f => known_type f = true) [syn_fmap]) as Hk
    by (repeat constructor).
  split; [exact Hk |]. eexists. split; [reflexivity |].
  exact (@report_iff_syn_beside_another sample_meta
           (Some "MNI152NLin2009cAsym") 1 false false true [syn_fmap] _
           Hk eq_refl).
Defined.

(** X10.  On fieldmaps of known types the list is sorted in place by
    priority rank before anything else is read, so it is left sorted
    whatever the outcome, also when the call then raises on a missing
    key. *)
Theorem list_sorted_whatever_the_outcome :
  forall bold_meta template omp_nthreads debug fmap_bspline fmap_demean fmaps,
    Forall (fun f => known_type f = true) fmaps ->
    let after :=
      fst (init_sdc_wf bold_meta template omp_nthreads debug fmap_bspline
             fmap_demean fmaps) in
    after = sort Nat.leb rank fmaps /\
    StronglySorted (fun a b => rank a <= rank b) after /\
    forall t, filter (type_is t) after = filter (type_is t) fmaps.
Proof.
  intros bold_meta template omp_nthreads debug fmap_bspline fmap_demean fmaps
    Hk after.
  assert (after = sort Nat.leb rank fmaps) as E.
  { subst after. destruct fmaps as [| f l]; [reflexivity |].
    now rewrite init_known by (assumption || discriminate). }
  split; [exact E |]. rewrite E. split; [apply sort_rank_sorted |].
  intros t.
  pose proof (sort_known Hk) as Hks.
  assert (forall l, Forall (fun f => known_type f = true) l ->
                    filter (type_is t) l =
                    filter (fun f => Nat.eqb
                                       match lookup FMAP_PRIORITY t with
                                       | Some r => r
                                       | None => 4
                                       end (rank f)) l) as Hrank.
  { intros l Hl. apply filter_ext_in. intros f Hin.
    rewrite Forall_forall in Hl. specialize (Hl f Hin).
    rewrite (type_is_tag _ _ (known_has_tag _ Hl)).
    destruct (rank_of_known _ Hl)
      as [[-> ->] | [[-> ->] | [[-> ->] | [-> ->]]]];
      unfold FMAP_PRIORITY; cbn [lookup];
      destruct (String.eqb_spec "epi" t); subst; try reflexivity;
      destruct (String.eqb_spec "fieldmap" t); subst; try reflexivity;
      destruct (String.eqb_spec "phasediff" t); subst; try reflexivity;
      destruct (String.eqb_spec "syn" t); subst; try reflexivity;
      cbn; symmetry; apply String.eqb_neq; congruence. }
  rewrite !Hrank by assumption.
  apply (sort_filter Nat.leb rank (Nat.eqb _)).
  intros a b Ha Hb. apply Nat.eqb_eq in Ha, Hb. subst. apply Nat.leb_refl.
Qed.

Lemma list_sorted_whatever_the_outcome_witness :
  let fmaps := [syn_fmap; bare_fieldmap_fmap] in
  Forall (fun f => known_type f = true) fmaps /\
  fst (sample_call fmaps) = sort Nat.leb rank fmaps /\
  fst (sample_call fmaps) = [bare_fieldmap_fmap; syn_fmap] /\
  snd (sample_call fmaps) = Raise (KeyError "fieldmap").
Proof.
  intros fmaps.
  assert (Forall (fun f => known_type f = true) fmaps) as Hk
    by (repeat constructor).
  split; [exact Hk |]. split; [| split; reflexivity].
  exact (proj1 (@list_sorted_whatever_the_outcome sample_meta
                  (Some "MNI152NLin2009cAsym") 1 false false true
                  fmaps Hk)).
Defined.

(** ** When a call can return at all *)

Lemma mapM_tags (fmaps : list dict) types tags :
  mapM (fun fmap => getitem fmap "type") fmaps = Ok types ->
  mapM hashable types = Ok tags ->
  Forall (fun f => has_tag f = true) fmaps.
Proof.
  revert types tags. induction fmaps as [| f l IH]; intros types tags H1 H2;
    [constructor |].
  cbn [mapM] in H1. unfold getitem at 1 in H1.
  destruct (lookup f "type") as [ty |] eqn:Ety; [| discriminate].
  cbn [rbind] in H1.
  destruct (mapM (fun fmap => getitem fmap "type") l) as [tys |] eqn:El;
    [| discriminate].
  injection H1 as <-. cbn [mapM] in H2.
  destruct ty as [s | d]; [| discriminate]. cbn [hashable rbind] in H2.
  destruct (mapM hashable tys) as [ts |] eqn:Et; [| discriminate].
  constructor; [| eapply IH; eauto].
  unfold has_tag, tag_of. now rewrite Ety.
Qed.

(** X11.  A call returns only on a list none of whose records has a type
    of the catalog, and then it returns the bypass, or on a non-empty list
    whose records all have a type of the catalog: a list that mixes the
    two never yields a workflow. *)
Theorem returns_only_on_all_or_no_known_types :
  forall bold_meta template omp_nthreads debug fmap_bspline fmap_demean fmaps
         wf,
    snd (init_sdc_wf bold_meta template omp_nthreads debug fmap_bspline
           fmap_demean fmaps) = Ok wf ->
    (Forall (fun f => known_type f = false) fmaps /\
     wf = bypass (new_workflow "sdc_bypass_wf")) \/
    (fmaps <> [] /\ Forall (fun f => known_type f = true) fmaps /\
     name wf = "sdc_wf").
Proof.
  intros bold_meta template omp_nthreads debug fmap_bspline fmap_demean fmaps
    wf H.
  assert (Forall (fun f => has_tag f = true) fmaps) as Ht.
  { unfold init_sdc_wf, bind, deref, lift in H.
    destruct (mapM (fun fmap => getitem fmap "type") fmaps) as [types |] eqn:E1;
      [| discriminate].
    destruct (mapM hashable types) as [tags |] eqn:E2; [| discriminate].
    eapply mapM_tags; eassumption. }
  rewrite (init_tagged _ _ _ _ _ _ Ht) in H.
  destruct (existsb known_type fmaps) eqn:Ek.
  - right. destruct (mapM priority fmaps) as [keys |] eqn:Ep;
      [| discriminate].
    cbv zeta in H. cbn [snd] in H.
    split; [intros ->; discriminate |]. split.
    + eapply Forall_impl; [| exact (mapM_ok_each _ _ Ep)].
      intros f [r Hr]. exact (priority_ok_known _ Hr).
    + apply compose_wiring in H. cbv zeta in H.
      destruct H as (u & reported & last_fmap & ty & _ & _ & _ & Hn & _).
      exact Hn.
  - left. cbn [snd] in H. injection H as <-. split; [| reflexivity].
    apply Forall_forall. intros f Hin.
    destruct (known_type f) eqn:E; [| reflexivity].
    rewrite <- Ek. symmetry. apply existsb_exists. eauto.
Qed.

Lemma returns_only_on_all_or_no_known_types_witness :
  exists wf,
    snd (sample_call [epi_fmap; syn_fmap]) = Ok wf /\
    name wf = "sdc_wf" /\
    Forall (fun f => known_type f = true) [epi_fmap; syn_fmap].
Proof.
  eexists. split; [reflexivity |].
  destruct (@returns_only_on_all_or_no_known_types sample_meta
              (Some "MNI152NLin2009cAsym") 1 false false true
              [epi_fmap; syn_fmap] _ eq_refl) as [[_ H] | (_ & Hk & Hn)];
    [discriminate H |].
  split; [exact Hn | exact Hk].
Defined.

(** ** The phase-difference path, with or without the fallback *)

(** X12.  Without ['epi'] and ['fieldmap'] entries, when the first
    ['phasediff'] entry of the list has its ['phasediff'] image, the
    phase-difference estimator is given that image and the magnitude
    images of that entry, feeds the unwarp sub-workflow together with
    [name_source], and the unwarp feeds the four outputs; the fallback and
    its report are added exactly when the list holds a ['syn'] entry. *)
Theorem phase_difference_path :
  forall bold_meta template omp_nthreads debug fmap_bspline fmap_demean
         fmaps pd p,
    Forall (fun f => known_type f = true) fmaps ->
    existsb (type_is "epi") fmaps = false ->
    existsb (type_is "fieldmap") fmaps = false ->
    find (type_is "phasediff") fmaps = Some pd ->
    lookup pd "phasediff" = Some p ->
    let est := PhdiffEstimator omp_nthreads
                 [("phasediff", One p); ("magnitude", Many (magnitudes pd))] in
    let unwarp := SdcUnwarp "sdc_unwarp_wf" omp_nthreads fmap_demean debug in
    let syn := SynSdc template (lookup bold_meta "PhaseEncodingDirection")
                 omp_nthreads in
    exists wf,
      snd (init_sdc_wf bold_meta template omp_nthreads debug fmap_bspline
             fmap_demean fmaps) = Ok wf /\
      name wf = "sdc_wf" /\
      sdc_method wf = Some "FMB (phasediff-based)" /\
      edges wf =
      unwarp_edges est unwarp ++
      (if existsb (type_is "syn") fmaps
       then syn_edges syn ++ report_edges syn else []) ++
      output_edges unwarp.
Proof.
  intros bold_meta template omp_nthreads debug fmap_bspline fmap_demean
    fmaps pd p Hk Hnoepi Hnofm Hfind Hp est unwarp syn.
  assert (fmaps <> []) as Hne by (intros ->; discriminate).
  rewrite init_known by assumption. cbn [snd].
  pose proof (sort_known Hk) as Hks.
  pose proof (@last_is_syn fmaps) as Hlast.
  destruct (sort Nat.leb rank fmaps) as [| best rest] eqn:E.
  { apply sort_nil in E. contradiction. }
  destruct (@head_is_first_of_best_type fmaps best rest 2 pd Hk E)
    as [-> Hr]; [| exact Hfind |].
  { apply Forall_forall. intros f Hin.
    rewrite Forall_forall in Hk. pose proof (Hk _ Hin) as Hkf.
    assert (type_is "epi" f = false) as Hne1.
    { destruct (type_is "epi" f) eqn:Ee; [| reflexivity].
      rewrite <- Hnoepi. symmetry. apply existsb_exists. eauto. }
    assert (type_is "fieldmap" f = false) as Hne2.
    { destruct (type_is "fieldmap" f) eqn:Ee; [| reflexivity].
      rewrite <- Hnofm. symmetry. apply existsb_exists. eauto. }
    rewrite (type_is_tag _ _ (known_has_tag _ Hkf)) in Hne1.
    rewrite (type_is_tag _ _ (known_has_tag _ Hkf)) in Hne2.
    destruct (rank_of_known _ Hkf) as [[Et ?] | [[Et ?] | [[? ?] | [? ?]]]];
      try lia; rewrite Et in *; discriminate. }
  inversion Hks as [| ? ? Hkb _]; subst.
  assert (tag pd = "phasediff") as Et.
  { destruct (rank_of_known _ Hkb) as [[? ?] | [[? ?] | [[? ?] | [? ?]]]];
      [lia | lia | assumption | lia]. }
  destruct (@final_in _ (pd :: rest)) as (last_fmap & Hf & Hinl);
    [discriminate |].
  assert (has_tag last_fmap = true) as Htl.
  { apply known_has_tag. rewrite Forall_forall in Hks. now apply Hks. }
  erewrite compose_phasediff by (eassumption || now apply known_has_tag).
  rewrite (Hlast _ Hk Hf).
  eexists. split; [reflexivity |].
  destruct (existsb (type_is "syn") fmaps); repeat split.
Qed.

Lemma phase_difference_path_witness :
  let fmaps := [phasediff_fmap; bare_phasediff_fmap] in
  let est := PhdiffEstimator 1
               [("phasediff", One (Str "sub-03_phasediff.nii.gz"));
                ("magnitude", Many (magnitudes phasediff_fmap))] in
  let unwarp := SdcUnwarp "sdc_unwarp_wf" 1 true false in
  Forall (fun f => known_type f = true) fmaps /\
  find (type_is "phasediff") fmaps = Some phasediff_fmap /\
  exists wf,
    snd (sample_call fmaps) = Ok wf /\
    edges wf = unwarp_edges est unwarp ++ output_edges unwarp.
Proof.
  intros fmaps est unwarp.
  assert (Forall (fun f => known_type f = true) fmaps) as Hk
    by (repeat constructor).
  assert (find (type_is "phasediff") fmaps = Some phasediff_fmap) as Hfind
    by reflexivity.
  split; [exact Hk |]. split; [exact Hfind |].
  destruct (@phase_difference_path sample_meta (Some "MNI152NLin2009cAsym")
              1 false false true fmaps phasediff_fmap
              (Str "sub-03_phasediff.nii.gz")
              Hk eq_refl eq_refl Hfind eq_refl)
    as (wf & Hwf & _ & _ & He).
  exists wf. split; [exact Hwf | exact He].
Defined.

(** ** The tuning arguments and the selection *)

Lemma plan_connect wf l :
  plan (connect wf l) =
  plan wf ++
  plan {| name := ""; sdc_method := None;
          edges := flat_map (fun '(a, b, ports) =>
                               map (fun '(p, q) => Edge a p b q) ports) l |}.
Proof. unfold plan, connect. cbn [edges]. apply map_app. Qed.

Lemma plan_set_sdc_method wf label :
  plan (set_sdc_method wf label) = plan wf.
Proof. reflexivity. Qed.

Section Tuning.
Variables (bold_meta bold_meta' : dict) (template template' : option string)
          (omp_nthreads omp_nthreads' : nat)
          (debug debug' fmap_bspline fmap_bspline' : bool)
          (fmap_demean fmap_demean' : bool).

(** The local variables without the configuration of the nodes. *)
Local Abbreviation sketch :=
  (fun fr : frame =>
     (name (workflow fr), sdc_method (workflow fr), plan (workflow fr),
      option_map kind (sdc_unwarp_wf fr))).

Lemma sketch_inv fr fr' :
  sketch fr = sketch fr' ->
  name (workflow fr) = name (workflow fr') /\
  sdc_method (workflow fr) = sdc_method (workflow fr') /\
  plan (workflow fr) = plan (workflow fr') /\
  option_map kind (sdc_unwarp_wf fr) = option_map kind (sdc_unwarp_wf fr').
Proof. intros H. injection H as H1 H2 H3 H4. auto. Qed.

Ltac same_sketch Hn Hm Hp Hu :=
  cbn [rmap workflow sdc_unwarp_wf];
  repeat (rewrite plan_connect || rewrite plan_set_sdc_method);
  cbn [name sdc_method set_sdc_method connect];
  rewrite ?Hn, ?Hm, ?Hp, ?Hu; reflexivity.

Lemma pepolar_path_sketch fmaps fmap fr fr' :
  sketch fr = sketch fr' ->
  rmap sketch (pepolar_path bold_meta omp_nthreads fmaps fmap fr) =
  rmap sketch (pepolar_path bold_meta' omp_nthreads' fmaps fmap fr').
Proof.
  intros H. destruct (@sketch_inv fr fr' H) as (Hn & Hm & Hp & Hu).
  unfold pepolar_path.
  destruct (getitem fmap "type") as [ty |]; [| reflexivity].
  cbn [rbind]. destruct (eq_str ty "epi"); [| same_sketch Hn Hm Hp Hu].
  destruct (epi_polarities fmaps) as [eps |]; [| reflexivity].
  cbn [rbind]. same_sketch Hn Hm Hp Hu.
Qed.

Lemma fieldmap_path_sketch fmap fr fr' :
  sketch fr = sketch fr' ->
  rmap sketch
    (fieldmap_path omp_nthreads debug fmap_bspline fmap_demean fmap fr) =
  rmap sketch
    (fieldmap_path omp_nthreads' debug' fmap_bspline' fmap_demean' fmap fr').
Proof.
  intros H. destruct (@sketch_inv fr fr' H) as (Hn & Hm & Hp & Hu).
  unfold fieldmap_path.
  destruct (getitem fmap "type") as [ty |]; [| reflexivity].
  cbn [rbind].
  destruct (eq_str ty "fieldmap" || eq_str ty "phasediff");
    [| same_sketch Hn Hm Hp Hu].
  destruct (eq_str ty "fieldmap").
  - destruct (getitem fmap "fieldmap") as [fm |]; [| reflexivity].
    cbn [rbind].
    destruct (getitem fmap "magnitude") as [mg |]; [| reflexivity].
    cbn [rbind]. destruct (eq_str ty "phasediff").
    + destruct (getitem fmap "phasediff") as [p |]; [| reflexivity].
      cbn [rbind]. same_sketch Hn Hm Hp Hu.
    + cbn [rbind]. same_sketch Hn Hm Hp Hu.
  - cbn [rbind]. destruct (eq_str ty "phasediff").
    + destruct (getitem fmap "phasediff") as [p |]; [| reflexivity].
      cbn [rbind]. same_sketch Hn Hm Hp Hu.
    + reflexivity.
Qed.

Lemma syn_path_sketch fmaps fr fr' :
  sketch fr = sketch fr' ->
  rmap sketch (syn_path bold_meta template omp_nthreads fmaps fr) =
  rmap sketch (syn_path bold_meta' template' omp_nthreads' fmaps fr').
Proof.
  intros H. destruct (@sketch_inv fr fr' H) as (Hn & Hm & Hp & Hu).
  unfold syn_path.
  destruct (final fmaps) as [last_fmap |]; [| reflexivity].
  cbn [rbind].
  destruct (getitem last_fmap "type") as [ty |]; [| reflexivity].
  cbn [rbind]. destruct (eq_str ty "syn"); [| same_sketch Hn Hm Hp Hu].
  destruct (Nat.eqb (List.length fmaps) 1); same_sketch Hn Hm Hp Hu.
Qed.

Lemma wire_outputs_sketch fr fr' :
  sketch fr = sketch fr' ->
  outline (wire_outputs fr) = outline (wire_outputs fr').
Proof.
  intros H. destruct (@sketch_inv fr fr' H) as (Hn & Hm & Hp & Hu).
  unfold wire_outputs, outline.
  destruct (sdc_unwarp_wf fr) as [u |], (sdc_unwarp_wf fr') as [u' |];
    try discriminate; [| reflexivity].
  cbn [option_map] in Hu. injection Hu as Hu.
  cbn [rmap]. rewrite !plan_connect.
  cbn [name sdc_method connect]. rewrite Hn, Hm, Hp.
  unfold plan. cbn. now rewrite Hu.
Qed.

Lemma compose_outline fmaps wf :
  outline (compose bold_meta template omp_nthreads debug fmap_bspline
             fmap_demean fmaps wf) =
  outline (compose bold_meta' template' omp_nthreads' debug' fmap_bspline'
             fmap_demean' fmaps wf).
Proof.
  unfold compose. destruct (first fmaps) as [fmap |]; [| reflexivity].
  cbn [rbind].
  pose proof (@pepolar_path_sketch fmaps fmap
                {| workflow := wf; sdc_unwarp_wf := None |}
                {| workflow := wf; sdc_unwarp_wf := None |} eq_refl) as H1.
  destruct (pepolar_path bold_meta omp_nthreads fmaps fmap _) as [fr1 |],
    (pepolar_path bold_meta' omp_nthreads' fmaps fmap _) as [fr1' |];
    cbn [rmap rbind] in *; try discriminate;
    [| injection H1 as ->; reflexivity].
  assert (sketch fr1 = sketch fr1') as S1 by congruence.
  pose proof (@fieldmap_path_sketch fmap fr1 fr1' S1) as H2.
  destruct (fieldmap_path omp_nthreads debug fmap_bspline fmap_demean fmap
              fr1) as [fr2 |],
    (fieldmap_path omp_nthreads' debug' fmap_bspline' fmap_demean' fmap
       fr1') as [fr2' |];
    cbn [rmap rbind] in *; try discriminate;
    [| injection H2 as ->; reflexivity].
  assert (sketch fr2 = sketch fr2') as S2 by congruence.
  pose proof (@syn_path_sketch fmaps fr2 fr2' S2) as H3.
  destruct (syn_path bold_meta template omp_nthreads fmaps fr2) as [fr3 |],
    (syn_path bold_meta' template' omp_nthreads' fmaps fr2') as [fr3' |];
    cbn [rmap rbind] in *; try discriminate;
    [| injection H3 as ->; reflexivity].
  apply wire_outputs_sketch. congruence.
Qed.
End Tuning.

(** X13.  The BOLD metadata, the template and the tuning arguments take no
    part in the selection: two calls on the same list that differ in these
    arguments leave the list in the same state and either raise the same
    exception or return workflows with the same name, the same method
    label and the same edges between nodes of the same kind; the
    arguments only end up in the configuration of the sub-workflows. *)
Theorem tuning_takes_no_part_in_selection :
  forall bold_meta template omp_nthreads debug fmap_bspline fmap_demean
         bold_meta' template' omp_nthreads' debug' fmap_bspline' fmap_demean'
         fmaps,
    let once := init_sdc_wf bold_meta template omp_nthreads debug
                  fmap_bspline fmap_demean fmaps in
    let other := init_sdc_wf bold_meta' template' omp_nthreads' debug'
                   fmap_bspline' fmap_demean' fmaps in
    fst once = fst other /\ outline (snd once) = outline (snd other).
Proof.
  intros bold_meta template omp_nthreads debug fmap_bspline fmap_demean
    bold_meta' template' omp_nthreads' debug' fmap_bspline' fmap_demean'
    fmaps once other.
  subst once other. unfold init_sdc_wf, bind, deref, lift, list_sort, ret.
  destruct (mapM (fun fmap => getitem fmap "type") fmaps) as [types |];
    [| split; reflexivity].
  destruct (mapM hashable types) as [tags |]; [| split; reflexivity].
  destruct (negb (supported tags)); [split; reflexivity |].
  destruct (mapM priority fmaps) as [keys |]; [| split; reflexivity].
  cbn [fst snd]. split; [reflexivity |]. apply compose_outline.
Qed.

(** ** Every EPI fieldmap is read *)

Lemma epi_polarities_filter (l : list dict) :
  Forall (fun f => has_tag f = true) l ->
  epi_polarities l = epi_polarities (filter (type_is "epi") l).
Proof.
  induction 1 as [| f l Hf _ IH]; [reflexivity |].
  cbn [epi_polarities filter]. rewrite (getitem_type _ Hf). cbn [rbind eq_str].
  rewrite (type_is_tag _ _ Hf).
  destruct (tag f =? "epi") eqn:E; [| exact IH].
  cbn [epi_polarities]. rewrite (getitem_type _ Hf). cbn [rbind eq_str].
  rewrite E, IH. reflexivity.
Qed.

Lemma epi_polarities_raises (l1 : list dict) x l2 :
  Forall (fun f => type_is "epi" f = true) (l1 ++ x :: l2) ->
  forallb epi_complete l1 = true ->
  lookup x "epi" = None ->
  epi_polarities (l1 ++ x :: l2) = Raise (KeyError "epi").
Proof.
  induction l1 as [| f l1 IH]; cbn [app forallb]; intros Hall Hc Hx;
    inversion Hall as [| ? ? Hf Hrest]; subst;
    destruct (type_is_inv _ _ Hf) as [Ht Et].
  - cbn [epi_polarities]. rewrite (getitem_type _ Ht), Et.
    cbn [rbind eq_str String.eqb Ascii.eqb Bool.eqb].
    unfold getitem. now rewrite Hx.
  - apply andb_prop in Hc. destruct Hc as [Hcf Hc].
    cbn [epi_polarities]. rewrite (getitem_type _ Ht), Et.
    cbn [rbind eq_str String.eqb Ascii.eqb Bool.eqb].
    unfold epi_complete, contains in Hcf. unfold getitem at 1 2, subscript.
    destruct (lookup f "epi"); [| discriminate].
    destruct (lookup f "metadata") as [[s | meta] |]; try discriminate.
    cbn [rbind andb] in *. unfold getitem at 1.
    destruct (lookup meta "PhaseEncodingDirection"); [| discriminate].
    cbn [rbind]. now rewrite (IH Hrest Hc Hx).
Qed.

(** X14.  All the ['epi'] entries of the list are read, not only the
    chosen one: when the first ['epi'] entry, in input order, that cannot
    be read in full lacks its ['epi'] image, the call raises [KeyError] on
    ['epi'] even though the entries before it are complete. *)
Theorem incomplete_later_epi_raises :
  forall bold_meta template omp_nthreads debug fmap_bspline fmap_demean
         fmaps l1 x l2,
    Forall (fun f => known_type f = true) fmaps ->
    filter (type_is "epi") fmaps = l1 ++ x :: l2 ->
    forallb epi_complete l1 = true ->
    lookup x "epi" = None ->
    snd (init_sdc_wf bold_meta template omp_nthreads debug fmap_bspline
           fmap_demean fmaps) = Raise (KeyError "epi").
Proof.
  intros bold_meta template omp_nthreads debug fmap_bspline fmap_demean
    fmaps l1 x l2 Hk Hepi Hc Hx.
  assert (fmaps <> []) as Hne.
  { intros ->. destruct l1; discriminate. }
  rewrite init_known by assumption. cbn [snd].
  pose proof (sort_known Hk) as Hks.
  assert (filter (type_is "epi") (sort Nat.leb rank fmaps) =
          filter (type_is "epi") fmaps) as Hstable.
  { rewrite <- !(@filter_rank_type _ 0) by assumption.
    apply (sort_filter Nat.leb rank (Nat.eqb 0)).
    intros a b Ha Hb. apply Nat.eqb_eq in Ha, Hb. subst. reflexivity. }
  destruct (find (type_is (tag_of_rank 0)) fmaps) as [y |] eqn:Hfind.
  2:{ assert (In x (filter (type_is "epi") fmaps)) as Hin
        by (rewrite Hepi; apply in_or_app; simpl; auto).
      apply filter_In in Hin. destruct Hin as [Hin Hty].
      apply (find_none _ _ Hfind) in Hin. cbn [tag_of_rank] in Hin.
      congruence. }
  destruct (sort Nat.leb rank fmaps) as [| best rest] eqn:E.
  { apply sort_nil in E. contradiction. }
  destruct (@head_is_first_of_best_type fmaps best rest 0 y Hk E) as [_ Hr];
    [apply Forall_forall; intros; lia | exact Hfind |].
  inversion Hks as [| ? ? Hkb _]; subst.
  assert (tag best = "epi") as Et.
  { destruct (rank_of_known _ Hkb) as [[? ?] | [[? ?] | [[? ?] | [? ?]]]];
      [assumption | lia ..]. }
  unfold compose. cbn [first rbind].
  rewrite pepolar_path_tag by now apply known_has_tag.
  rewrite Et. cbn [String.eqb Ascii.eqb Bool.eqb].
  rewrite epi_polarities_filter
    by (eapply Forall_impl; [| exact Hks]; apply known_has_tag).
  rewrite Hstable, Hepi.
  rewrite epi_polarities_raises; try assumption; [reflexivity |].
  rewrite <- Hepi. apply Forall_forall. intros f Hin.
  apply filter_In in Hin. tauto.
Qed.

Lemma incomplete_later_epi_raises_witness :
  let fmaps := [syn_fmap; epi_fmap; [("type", Str "epi")]] in
  Forall (fun f => known_type f = true) fmaps /\
  filter (type_is "epi") fmaps = [epi_fmap] ++ [("type", Str "epi")] :: [] /\
  snd (sample_call fmaps) = Raise (KeyError "epi").
Proof.
  intros fmaps.
  assert (Forall (fun f => known_type f = true) fmaps) as Hk
    by (repeat constructor).
  assert (filter (type_is "epi") fmaps =
          [epi_fmap] ++ [("type", Str "epi")] :: []) as Hf by reflexivity.
  split; [exact Hk |]. split; [exact Hf |].
  exact (@incomplete_later_epi_raises sample_meta
           (Some "MNI152NLin2009cAsym") 1 false false true fmaps
           [epi_fmap] [("type", Str "epi")] [] Hk Hf eq_refl eq_refl).
Defined.

(** ** The selection, in terms of the types *)

Lemma filter_none {A} (p : A -> bool) l :
  Forall (fun x => p x = false) l -> filter p l = [].
Proof.
  induction 1 as [| x l Hx _ IH]; cbn [filter]; [reflexivity |].
  now rewrite Hx.
Qed.

(** A list sorted by a key among 0, 1, 2 and 3 is its elements of key 0,
    then those of key 1, of key 2 and of key 3. *)
Lemma sorted_classes {A} (key : A -> nat) (l : list A) :
  StronglySorted (fun a b => key a <= key b) l ->
  Forall (fun x => key x <= 3) l ->
  l = filter (fun x => Nat.eqb 0 (key x)) l ++
      filter (fun x => Nat.eqb 1 (key x)) l ++
      filter (fun x => Nat.eqb 2 (key x)) l ++
      filter (fun x => Nat.eqb 3 (key x)) l.
Proof.
  induction 1 as [| x t _ IH Hx]; intros Hb; [reflexivity |].
  inversion Hb as [| ? ? Hbx Hbt]; subst. specialize (IH Hbt).
  assert (forall j, j < key x ->
                    filter (fun y => Nat.eqb j (key y)) t = []) as Hnone.
  { intros j Hj. apply filter_none. eapply Forall_impl; [| exact Hx].
    cbv beta. intros y Hy. apply Nat.eqb_neq. lia. }
  cbn [filter].
  destruct (Nat.eqb_spec 0 (key x)), (Nat.eqb_spec 1 (key x)),
    (Nat.eqb_spec 2 (key x)), (Nat.eqb_spec 3 (key x)); try lia;
    rewrite ?(Hnone 0), ?(Hnone 1), ?(Hnone 2) in IH |- * by lia;
    cbn [app] in *; now rewrite <- IH.
Qed.

(** The sorted list of fieldmaps of known types: the ['epi'] records, then
    the ['fieldmap'], the ['phasediff'] and the ['syn'] ones, each group in
    input order. *)
Lemma sort_by_type (fmaps : list dict) :
  Forall (fun f => known_type f = true) fmaps ->
  sort Nat.leb rank fmaps =
  filter (type_is "epi") fmaps ++ filter (type_is "fieldmap") fmaps ++
  filter (type_is "phasediff") fmaps ++ filter (type_is "syn") fmaps.
Proof.
  intros Hk. pose proof (sort_known Hk) as Hks.
  assert (forall r, filter (fun f => Nat.eqb r (rank f))
                      (sort Nat.leb rank fmaps) =
                    filter (type_is (tag_of_rank r)) fmaps) as Hclass.
  { intros r. rewrite <- (filter_rank_type r Hk).
    apply (sort_filter Nat.leb rank (Nat.eqb r)).
    intros a b Ha Hb. apply Nat.eqb_eq in Ha, Hb. subst. apply Nat.leb_refl. }
  rewrite (sorted_classes rank (l := sort Nat.leb rank fmaps)) at 1.
  - now rewrite !Hclass.
  - apply sort_rank_sorted.
  - eapply Forall_impl; [| exact Hks]. intros f Hf.
    destruct (rank_of_known _ Hf) as [[_ ->] | [[_ ->] | [[_ ->] | [_ ->]]]];
      lia.
Qed.

Lemma existsb_find {A} (p : A -> bool) l :
  existsb p l = true -> exists x, find p l = Some x.
Proof.
  induction l as [| y l IH]; cbn [existsb find]; [discriminate |].
  destruct (p y); [eauto | exact IH].
Qed.

(** The chosen fieldmap is the first record of the best type that the
    list holds. *)
Lemma best_of_type (fmaps : list dict) best rest r :
  Forall (fun f => known_type f = true) fmaps ->
  sort Nat.leb rank fmaps = best :: rest ->
  existsb (type_is (tag_of_rank r)) fmaps = true ->
  (forall r', r' < r -> existsb (type_is (tag_of_rank r')) fmaps = false) ->
  find (type_is (tag_of_rank r)) fmaps = Some best.
Proof.
  intros Hk E Hsome Hnone.
  destruct (existsb_find _ _ Hsome) as [x Hx].
  destruct (@head_is_first_of_best_type fmaps best rest r x Hk E)
    as [-> _]; [| exact Hx | exact Hx].
  apply Forall_forall. intros f Hin.
  destruct (Nat.le_gt_cases r (rank f)) as [Hle | Hlt]; [exact Hle |].
  exfalso. specialize (Hnone _ Hlt).
  rewrite Forall_forall in Hk.
  assert (existsb (type_is (tag_of_rank (rank f))) fmaps = true) as Ht.
  { apply existsb_exists. exists f. split; [exact Hin |].
    rewrite (@type_is_rank f (rank f) (Hk _ Hin)). apply Nat.eqb_refl. }
  congruence.
Qed.

(** C1.  On a non-empty list of fieldmaps whose type tags the catalog
    knows and whose last element after sorting is not the ['syn']
    fallback, the call leaves the list sorted ascending by the rank that
    [FMAP_PRIORITY] gives to each type ( ['epi'] records first, then
    ['fieldmap'], then ['phasediff'], each group in input order) and takes
    its first element [best] as the fieldmap to use.  The rank of [best]
    is the least among the candidates; [best] is the first ['epi'] record
    of the input if there is one, else the first ['fieldmap'] record, else
    the first ['phasediff'] record; and the outcome of the call is the one
    that the records of [best] give: the PEPOLAR workflow over the ['epi']
    records, or the fieldmap-based workflow whose estimator is fed the
    images of [best], or the [KeyError] of the first key that [best]
    lacks. *)
Theorem selection_is_priority_minimal :
  forall bold_meta template omp_nthreads debug fmap_bspline fmap_demean fmaps,
    fmaps <> [] ->
    Forall (fun f => known_type f = true) fmaps ->
    (forall last_fmap,
        final (sort Nat.leb rank fmaps) = Ok last_fmap ->
        type_is "syn" last_fmap = false) ->
    let after_call :=
      init_sdc_wf bold_meta template omp_nthreads debug fmap_bspline
        fmap_demean fmaps in
    let unwarp := SdcUnwarp "sdc_unwarp_wf" omp_nthreads fmap_demean debug in
    exists best rest,
      fst after_call = best :: rest /\
      first (fst after_call) = Ok best /\
      StronglySorted (fun a b => rank a <= rank b) (best :: rest) /\
      Permutation fmaps (best :: rest) /\
      Forall (fun f => rank best <= rank f) fmaps /\
      (exists l1 l2, fmaps = l1 ++ best :: l2 /\
                     Forall (fun f => rank best < rank f) l1) /\
      (forall r, filter (fun f => Nat.eqb r (rank f)) (best :: rest) =
                 filter (fun f => Nat.eqb r (rank f)) fmaps) /\
      (forall wf, snd after_call = Ok wf ->
                  sdc_method wf =
                  Some (if type_is "epi" best then PEPOLAR_METHOD
                        else ("FMB (" ++ tag best ++ "-based)")%string)) /\
      Forall (fun f => lookup FMAP_PRIORITY (tag f) = Some (rank f)) fmaps /\
      best :: rest =
      filter (type_is "epi") fmaps ++ filter (type_is "fieldmap") fmaps ++
      filter (type_is "phasediff") fmaps ++ filter (type_is "syn") fmaps /\
      (existsb (type_is "epi") fmaps = true ->
       find (type_is "epi") fmaps = Some best) /\
      (existsb (type_is "epi") fmaps = false ->
       existsb (type_is "fieldmap") fmaps = true ->
       find (type_is "fieldmap") fmaps = Some best) /\
      (existsb (type_is "epi") fmaps = false ->
       existsb (type_is "fieldmap") fmaps = false ->
       find (type_is "phasediff") fmaps = Some best) /\
      snd after_call =
      (if type_is "epi" best then
         epi_fmaps <- epi_polarities (filter (type_is "epi") fmaps) ;;
         Ok {| name := "sdc_wf";
               sdc_method := Some PEPOLAR_METHOD;
               edges :=
                 output_edges
                   (PepolarUnwarp "pepolar_unwarp_wf" bold_meta epi_fmaps
                      omp_nthreads) |}
       else if type_is "fieldmap" best then
         fieldmap <- getitem best "fieldmap" ;;
         magnitude <- getitem best "magnitude" ;;
         Ok {| name := "sdc_wf";
               sdc_method := Some "FMB (fieldmap-based)";
               edges :=
                 unwarp_edges
                   (FmapEstimator omp_nthreads fmap_bspline
                      [("fieldmap", One fieldmap);
                       ("magnitude", One magnitude)]) unwarp ++
                 output_edges unwarp |}
       else
         phasediff <- getitem best "phasediff" ;;
         Ok {| name := "sdc_wf";
               sdc_method := Some "FMB (phasediff-based)";
               edges :=
                 unwarp_edges
                   (PhdiffEstimator omp_nthreads
                      [("phasediff", One phasediff);
                       ("magnitude", Many (magnitudes best))]) unwarp ++
                 output_edges unwarp |}).
Proof.
  intros bold_meta template omp_nthreads debug fmap_bspline fmap_demean fmaps
    Hne Hk Hlast after_call unwarp.
  subst after_call. rewrite init_known by assumption.
  cbn [fst snd].
  pose proof (sort_rank_sorted fmaps) as Hs.
  pose proof (sort_perm Nat.leb rank fmaps) as Hp.
  pose proof (sort_known Hk) as Hks.
  pose proof (sort_filter Nat.leb rank) as Hst.
  pose proof (sort_by_type Hk) as Htypes.
  assert (filter (type_is "epi") (sort Nat.leb rank fmaps) =
          filter (type_is "epi") fmaps) as Hstable.
  { rewrite <- !(@filter_rank_type _ 0) by assumption.
    apply (sort_filter Nat.leb rank (Nat.eqb 0)).
    intros a b Ha Hb. apply Nat.eqb_eq in Ha, Hb. subst. reflexivity. }
  pose proof (@best_of_type fmaps) as Hbest.
  destruct (sort Nat.leb rank fmaps) as [| best rest] eqn:E.
  { apply sort_nil in E. contradiction. }
  destruct (sort_head rank fmaps E) as (l1 & l2 & Hl & H1 & H2).
  destruct (@final_in _ (best :: rest)) as (last_fmap & Hf & Hin);
    [discriminate |].
  pose proof (Hlast _ Hf) as Hns.
  inversion Hks as [| ? ? Hkb Hkr]; subst.
  pose proof (known_has_tag _ Hkb) as Htb.
  assert (has_tag last_fmap = true) as Htl.
  { apply known_has_tag. rewrite Forall_forall in Hks. now apply Hks. }
  rewrite (type_is_tag _ _ Htl) in Hns.
  assert (tag best <> "syn") as Hb.
  { intros Hb.
    rewrite (@sorted_last_syn (best :: rest) last_fmap best Hks Hs Hf
               (or_introl eq_refl) Hb) in Hns.
    discriminate. }
  assert (In best (l1 ++ best :: l2)) as Hinb
    by (apply in_or_app; simpl; auto).
  (* the outcome, from the records of [best] *)
  assert (compose bold_meta template omp_nthreads debug fmap_bspline
            fmap_demean (best :: rest) (new_workflow "sdc_wf") =
          (if type_is "epi" best then
             epi_fmaps <-
               epi_polarities (filter (type_is "epi") (l1 ++ best :: l2)) ;;
             Ok {| name := "sdc_wf";
                   sdc_method := Some PEPOLAR_METHOD;
                   edges :=
                     output_edges
                       (PepolarUnwarp "pepolar_unwarp_wf" bold_meta epi_fmaps
                          omp_nthreads) |}
           else if type_is "fieldmap" best then
             fieldmap <- getitem best "fieldmap" ;;
             magnitude <- getitem best "magnitude" ;;
             Ok {| name := "sdc_wf";
                   sdc_method := Some "FMB (fieldmap-based)";
                   edges :=
                     unwarp_edges
                       (FmapEstimator omp_nthreads fmap_bspline
                          [("fieldmap", One fieldmap);
                           ("magnitude", One magnitude)]) unwarp ++
                     output_edges unwarp |}
           else
             phasediff <- getitem best "phasediff" ;;
             Ok {| name := "sdc_wf";
                   sdc_method := Some "FMB (phasediff-based)";
                   edges :=
                     unwarp_edges
                       (PhdiffEstimator omp_nthreads
                          [("phasediff", One phasediff);
                           ("magnitude", Many (magnitudes best))]) unwarp ++
                     output_edges unwarp |})) as Hout.
  { rewrite (@type_is_tag best "epi" Htb), (@type_is_tag best "fieldmap" Htb).
    unfold compose. cbn [first rbind].
    rewrite pepolar_path_tag by assumption.
    destruct (rank_of_known _ Hkb) as [[Et _] | [[Et _] | [[Et _] | [Et _]]]];
      try contradiction; rewrite Et;
      cbn [String.eqb Ascii.eqb Bool.eqb rbind].
    - rewrite (@epi_polarities_filter (best :: rest))
        by (eapply Forall_impl; [| exact Hks]; apply known_has_tag).
      rewrite Hstable.
      destruct (epi_polarities (filter (type_is "epi") (l1 ++ best :: l2)))
        as [eps |]; [| reflexivity].
      cbn [rbind]. rewrite fieldmap_path_tag by assumption.
      rewrite Et. cbn [String.eqb Ascii.eqb Bool.eqb rbind].
      erewrite syn_path_tag by eassumption. rewrite Hns. reflexivity.
    - rewrite fieldmap_path_tag by assumption.
      rewrite Et. cbn [String.eqb Ascii.eqb Bool.eqb rbind].
      destruct (getitem best "fieldmap"); [| reflexivity].
      destruct (getitem best "magnitude"); [| reflexivity].
      cbn [rbind]. erewrite syn_path_tag by eassumption. rewrite Hns.
      reflexivity.
    - rewrite fieldmap_path_tag by assumption.
      rewrite Et. cbn [String.eqb Ascii.eqb Bool.eqb rbind].
      destruct (getitem best "phasediff"); [| reflexivity].
      cbn [rbind]. erewrite syn_path_tag by eassumption. rewrite Hns.
      reflexivity. }
  exists best, rest.
  split; [reflexivity |]. split; [reflexivity |].
  split; [exact Hs |]. split; [exact Hp |].
  split.
  { apply Forall_app. split.
    - eapply Forall_impl; [| exact H1]. simpl. intros. lia.
    - constructor; [lia | exact H2]. }
  split; [eauto |].
  split.
  { intros r. rewrite <- E. apply (Hst (Nat.eqb r)).
    intros a b Ha Hb'. apply Nat.eqb_eq in Ha, Hb'. subst.
    apply Nat.leb_refl. }
  split.
  { intros wf Hwf. rewrite Hout in Hwf.
    rewrite (@type_is_tag best "epi" Htb) in Hwf |- *.
    rewrite (@type_is_tag best "fieldmap" Htb) in Hwf.
    destruct (rank_of_known _ Hkb) as [[Et _] | [[Et _] | [[Et _] | [Et _]]]];
      try contradiction; rewrite Et in Hwf |- *;
      cbn [String.eqb Ascii.eqb Bool.eqb] in Hwf |- *.
    - destruct (epi_polarities _); [| discriminate].
      injection Hwf as <-. reflexivity.
    - destruct (getitem best "fieldmap"); [| discriminate].
      destruct (getitem best "magnitude"); [| discriminate].
      injection Hwf as <-. reflexivity.
    - destruct (getitem best "phasediff"); [| discriminate].
      injection Hwf as <-. reflexivity. }
  split.
  { eapply Forall_impl; [| exact Hk]. intros f Hf'.
    destruct (rank_of_known _ Hf')
      as [[-> ->] | [[-> ->] | [[-> ->] | [-> ->]]]]; reflexivity. }
  split; [exact Htypes |].
  split.
  { intros He. apply (Hbest best rest 0 Hk eq_refl He). intros r' Hr'. lia. }
  split.
  { intros He Hfm. apply (Hbest best rest 1 Hk eq_refl Hfm).
    intros r' Hr'. assert (r' = 0) as -> by lia. exact He. }
  split; [| exact Hout].
  intros He Hfm. apply (Hbest best rest 2 Hk eq_refl).
  - apply existsb_exists. exists best. split; [exact Hinb |].
    cbn [tag_of_rank]. rewrite (@type_is_tag best "phasediff" Htb).
    assert (type_is "epi" best = false) as N1.
    { destruct (type_is "epi" best) eqn:Ee; [| reflexivity].
      rewrite <- He. symmetry. apply existsb_exists. eauto. }
    assert (type_is "fieldmap" best = false) as N2.
    { destruct (type_is "fieldmap" best) eqn:Ee; [| reflexivity].
      rewrite <- Hfm. symmetry. apply existsb_exists. eauto. }
    rewrite (@type_is_tag best "epi" Htb) in N1.
    rewrite (@type_is_tag best "fieldmap" Htb) in N2.
    destruct (rank_of_known _ Hkb) as [[Et _] | [[Et _] | [[Et _] | [Et _]]]];
      try contradiction; rewrite Et in *; try discriminate; reflexivity.
  - intros r' Hr'. destruct r' as [| [| r']]; [exact He | exact Hfm | lia].
Qed.

Lemma selection_is_priority_minimal_witness :
  let fmaps := [phasediff_fmap; fieldmap_fmap; bare_fieldmap_fmap] in
  let unwarp := SdcUnwarp "sdc_unwarp_wf" 1 true false in
  fmaps <> [] /\
  Forall (fun f => known_type f = true) fmaps /\
  (forall last_fmap,
      final (sort Nat.leb rank fmaps) = Ok last_fmap ->
      type_is "syn" last_fmap = false) /\
  fst (sample_call fmaps) =
  [fieldmap_fmap; bare_fieldmap_fmap; phasediff_fmap] /\
  find (type_is "fieldmap") fmaps = Some fieldmap_fmap /\
  snd (sample_call fmaps) =
  Ok {| name := "sdc_wf";
        sdc_method := Some "FMB (fieldmap-based)";
        edges :=
          unwarp_edges
            (FmapEstimator 1 false
               [("fieldmap", One (Str "sub-03_fieldmap.nii.gz"));
                ("magnitude", One (Str "sub-03_magnitude.nii.gz"))]) unwarp ++
          output_edges unwarp |}.
Proof.
  intros fmaps unwarp.
  assert (fmaps <> []) as Hne by discriminate.
  assert (Forall (fun f => known_type f = true) fmaps) as Hk
    by (repeat constructor).
  assert (forall last_fmap,
             final (sort Nat.leb rank fmaps) = Ok last_fmap ->
             type_is "syn" last_fmap = false) as Hl.
  { intros last_fmap H. vm_compute in H. injection H as <-. reflexivity. }
  split; [exact Hne |]. split; [exact Hk |]. split; [exact Hl |].
  destruct (@selection_is_priority_minimal sample_meta
              (Some "MNI152NLin2009cAsym") 1 false false true fmaps
              Hne Hk Hl)
    as (best & rest & Hlist & _ & _ & _ & _ & _ & _ & _ & _ & Htypes & _
        & Hfind & _ & Hout).
  assert (best = fieldmap_fmap /\ rest = [bare_fieldmap_fmap; phasediff_fmap])
    as [-> ->].
  { cbv in Htypes. injection Htypes as -> ->. split; reflexivity. }
  split; [exact Hlist |].
  split; [exact (Hfind eq_refl eq_refl) |].
  exact Hout.
Defined.
